(** * GFM autolink literals with Lemmy mentions (lib/index.js)

    A shallow embedding of [lib/index.js]: the boundary predicate
    [previous], the domain validator [isCorrectDomain], the trailing
    punctuation splitter [splitUrl], the six replace handlers, the pattern
    table of [transformGfmAutolinkLiterals] and the escape rules of
    [gfmAutolinkLiteralToMarkdown].

    JavaScript strings are sequences of UTF-16 code units; a code unit is a
    [Z] and a string is a [list Z].  [charCodeAt] out of range is [NaN],
    modelled as [None]. *)

From Stdlib Require Import String Ascii.
From Stdlib Require Import ZArith List Bool Lia.
Import ListNotations.
Set Warnings "-register-all".
Open Scope Z_scope.
Open Scope list_scope.

(** ** Proof automation *)

Ltac inv H := inversion H; subst; clear H.

Ltac conj := repeat match goal with |- _ /\ _ => split end.

Ltac zbool :=
  repeat match goal with
         | |- context [?a <=? ?b] =>
             destruct (Z.leb_spec a b); cbn [andb orb negb]
         | |- context [?a <? ?b] =>
             destruct (Z.ltb_spec a b); cbn [andb orb negb]
         | |- context [?a =? ?b] =>
             destruct (Z.eqb_spec a b); cbn [andb orb negb]
         end;
  try reflexivity; try discriminate; try lia.

(** ** Strings *)

Definition code := Z.
Definition jsstring := list code.

(** The code units of an ASCII literal of the source. *)
Definition lit (s : string) : jsstring :=
  map (fun a => Z.of_N (N_of_ascii a)) (list_ascii_of_string s).

(** [s.length] *)
Definition strlen (s : jsstring) : Z := Z.of_nat (length s).

(** [s.charCodeAt(i)]: [None] stands for [NaN]. *)
Definition charCodeAt (s : jsstring) (i : Z) : option code :=
  if i <? 0 then None else nth_error s (Z.to_nat i).

(** Relative index of [String.prototype.slice]: negative counts from the
    end, everything is clamped to [0 .. len]. *)
Definition relIndex (len i : Z) : Z :=
  if i <? 0 then Z.max (len + i) 0 else Z.min i len.

(** [s.slice(from, to)] *)
Definition slice (s : jsstring) (from to : Z) : jsstring :=
  let a := relIndex (strlen s) from in
  let b := relIndex (strlen s) to in
  firstn (Z.to_nat (b - a)) (skipn (Z.to_nat a) s).

(** [s.slice(from)] *)
Definition sliceFrom (s : jsstring) (from : Z) : jsstring :=
  slice s from (strlen s).

(** [s.indexOf(c)] for a one-character needle; [-1] when absent. *)
Fixpoint indexOfFrom (c : code) (s : jsstring) (i : Z) : Z :=
  match s with
  | [] => -1
  | x :: t => if x =? c then i else indexOfFrom c t (i + 1)
  end.

Definition indexOf (s : jsstring) (c : code) : Z := indexOfFrom c s 0.

(** [ccount(value, character)] of the [ccount] package, for a
    one-character needle: the number of occurrences. *)
Fixpoint ccount (value : jsstring) (character : code) : Z :=
  match value with
  | [] => 0
  | x :: t => (if x =? character then 1 else 0) + ccount t character
  end.

(** [s.split(sep)] for a one-character separator: never empty. *)
Fixpoint split (sep : code) (s : jsstring) : list jsstring :=
  match s with
  | [] => [[]]
  | c :: t =>
      if c =? sep then [] :: split sep t
      else match split sep t with
           | h :: r => (c :: h) :: r
           | [] => [[c]]
           end
  end.

(** [array[i]]: [None] stands for [undefined]. *)
Definition at_ {A} (l : list A) (i : Z) : option A :=
  if i <? 0 then None else nth_error l (Z.to_nat i).

(** Truthiness of a string-or-undefined value: defined and non-empty. *)
Definition truthy (v : option jsstring) : bool :=
  match v with
  | Some (_ :: _) => true
  | _ => false
  end.

(** The code unit of a Basic Latin character. *)
Definition ch (a : ascii) : code := Z.of_N (N_of_ascii a).
Arguments ch a%_char.

(** Named code units used by the source. *)
Definition c_quote : code := 34.
Definition c_bang : code := 33.
Definition c_lparen : code := 40.
Definition c_rparen : code := 41.
Definition c_plus : code := 43.
Definition c_minus : code := 45.
Definition c_dot : code := 46.
Definition c_slash : code := 47.
Definition c_colon : code := 58.
Definition c_at : code := 64.
Definition c_underscore : code := 95.

(** ** Regular expressions

    The fragment of ECMAScript regular expressions the source uses, with a
    backtracking matcher in continuation-passing style (the shape of the
    language specification's matcher). *)

Inductive ClassItem : Type :=
| CChar (c : code)
| CRange (lo hi : code)
| CWord
| CDigit.

Inductive Regex : Type :=
| REmpty
| RChar (c : code)
| RClass (negated : bool) (items : list ClassItem)
| RSeq (r1 r2 : Regex)
| RAlt (r1 r2 : Regex)
| RStar (r : Regex)
| RPlus (r : Regex)
| ROpt (r : Regex)
| RGroup (n : nat) (r : Regex)
| RLookahead (r : Regex)
| RBegin
| REnd.

Definition inRange (lo hi c : code) : bool := (lo <=? c) && (c <=? hi).

Definition isDigit (c : code) : bool := inRange 48 57 c.

Definition isWord (c : code) : bool :=
  inRange 97 122 c || inRange 65 90 c || isDigit c || (c =? c_underscore).

(** The other case of a Basic Latin letter.  Canonicalisation without the
    [u] flag never maps a character outside Basic Latin to one inside, so
    for patterns written in Basic Latin this is all of case folding. *)
Definition swapCase (c : code) : code :=
  if inRange 65 90 c then c + 32
  else if inRange 97 122 c then c - 32
  else c.

Definition itemHas (it : ClassItem) (c : code) : bool :=
  match it with
  | CChar x => c =? x
  | CRange lo hi => inRange lo hi c
  | CWord => isWord c
  | CDigit => isDigit c
  end.

Definition classHas (items : list ClassItem) (c : code) : bool :=
  existsb (fun it => itemHas it c) items.

(** Membership in a class under the [i] flag: some member has the same
    canonical form. *)
Definition classMatches (ic : bool) (items : list ClassItem) (c : code) : bool :=
  classHas items c || (ic && classHas items (swapCase c)).

Record MState : Type := mkMState {
  pos : nat;
  rest : jsstring;
  caps : list (option jsstring)
}.

Definition advance (x : MState) (t : jsstring) : MState :=
  mkMState (S (pos x)) t (caps x).

Fixpoint setNth {A} (n : nat) (v : A) (l : list A) : list A :=
  match n, l with
  | O, _ :: t => v :: t
  | S k, h :: t => h :: setNth k v t
  | _, [] => []
  end.

Definition capture (n : nat) (x y : MState) : MState :=
  mkMState (pos y) (rest y)
           (setNth n (Some (firstn (pos y - pos x) (rest x))) (caps y)).

Definition Cont := MState -> option MState.

(** Greedy repetition of [step]; an iteration that consumes nothing is
    rejected, so [n] iterations need [n] characters and the counter
    started at the remaining length is never the reason to stop. *)
Fixpoint greedy (step : Cont -> Cont) (k : Cont) (n : nat) (x : MState)
  : option MState :=
  match n with
  | O => k x
  | S n' =>
      match step (fun y => if Nat.eqb (pos y) (pos x) then None
                           else greedy step k n' y) x with
      | Some z => Some z
      | None => k x
      end
  end.

Fixpoint rmatch (ic : bool) (r : Regex) (k : Cont) (x : MState)
  : option MState :=
  match r with
  | REmpty => k x
  | RChar c =>
      match rest x with
      | ch :: t => if classMatches ic [CChar c] ch then k (advance x t) else None
      | [] => None
      end
  | RClass neg items =>
      match rest x with
      | ch :: t =>
          if xorb neg (classMatches ic items ch) then k (advance x t) else None
      | [] => None
      end
  | RSeq a b => rmatch ic a (fun y => rmatch ic b k y) x
  | RAlt a b =>
      match rmatch ic a k x with
      | Some z => Some z
      | None => rmatch ic b k x
      end
  | RStar a => greedy (rmatch ic a) k (length (rest x)) x
  | RPlus a =>
      rmatch ic a (fun y => greedy (rmatch ic a) k (length (rest y)) y) x
  | ROpt a =>
      match rmatch ic a k x with
      | Some z => Some z
      | None => k x
      end
  | RGroup n a => rmatch ic a (fun y => k (capture n x y)) x
  | RLookahead a =>
      match rmatch ic a Some x with
      | Some _ => k x
      | None => None
      end
  | RBegin => if Nat.eqb (pos x) 0 then k x else None
  | REnd =>
      match rest x with
      | [] => k x
      | _ :: _ => None
      end
  end.

(** A regular expression object: pattern, flags, number of groups. *)
Record RegExp : Type := mkRegExp {
  pattern : Regex;
  global : bool;
  ignoreCase : bool;
  groupCount : nat
}.

(** The result array of [exec]: [index], [match[0]] and the groups. *)
Record ExecResult : Type := mkExec {
  exec_index : nat;
  exec_whole : jsstring;
  exec_groups : list (option jsstring)
}.

(** Leftmost match at or after position [p], [s] being the input from [p]. *)
Fixpoint scan (re : RegExp) (p : nat) (s : jsstring) : option ExecResult :=
  match rmatch (ignoreCase re) (pattern re) Some
               (mkMState p s (repeat None (groupCount re))) with
  | Some y => Some (mkExec p (firstn (pos y - p) s) (caps y))
  | None =>
      match s with
      | [] => None
      | _ :: t => scan re (S p) t
      end
  end.

(** [re.exec(input)] with [re.lastIndex = lastIndex]; a regular expression
    without the [g] flag always starts at 0. *)
Definition exec (re : RegExp) (input : jsstring) (lastIndex : nat)
  : option ExecResult :=
  let from := if global re then lastIndex else O in
  if Nat.ltb (length input) from then None
  else scan re from (skipn from input).

(** [re.test(s)] on a regular expression without the [g] flag. *)
Definition test (re : RegExp) (s : jsstring) : bool :=
  match exec re s 0 with
  | Some _ => true
  | None => false
  end.

(** The characters of [s] in sequence. *)
Definition rlit (s : string) : Regex :=
  fold_right (fun c r => RSeq (RChar c) r) REmpty (lit s).

(** ** The syntax tree (mdast)

    Text nodes, link nodes, and every other parent kind ([root],
    [paragraph], [emphasis], [linkReference], ...) by its type name. *)

Inductive Node : Type :=
| Text (value : jsstring)
| Link (title : option jsstring) (url : jsstring) (children : list Node)
| Parent (type : string) (children : list Node).

Definition nodeType (n : Node) : string :=
  match n with
  | Text _ => "text"
  | Link _ _ _ => "link"
  | Parent ty _ => ty
  end.

(** What a replace function returns: [false], one node, or an array. *)
Inductive ReplaceResult : Type :=
| RFalse
| ROne (n : Node)
| RMany (ns : list Node).

Definition resultNodes (r : ReplaceResult) : list Node :=
  match r with
  | RFalse => []
  | ROne n => [n]
  | RMany ns => ns
  end.

(** The match object handed to a replace function (its [stack] field is
    not read by this program). *)
Record RegExpMatchObject : Type := mkMatch {
  index : Z;
  input : jsstring
}.

(** A replace function receives the whole match, the groups and the match
    object. *)
Definition ReplaceFunction : Type :=
  jsstring -> list (option jsstring) -> RegExpMatchObject -> ReplaceResult.

(** Spreading the groups over the parameters of a handler.  Every group of
    the six patterns takes part in every match, so the handlers receive
    strings, as their signatures say. *)
Definition spread2
  (f : jsstring -> jsstring -> jsstring -> RegExpMatchObject -> ReplaceResult)
  : ReplaceFunction :=
  fun whole gs m =>
    match gs with
    | [Some a; Some b] => f whole a b m
    | _ => RFalse
    end.

Definition spread3
  (f : jsstring -> jsstring -> jsstring -> jsstring -> RegExpMatchObject
       -> ReplaceResult)
  : ReplaceFunction :=
  fun whole gs m =>
    match gs with
    | [Some a; Some b; Some c] => f whole a b c m
    | _ => RFalse
    end.

(** ** The replacement walk (mdast-util-find-and-replace) *)

(** End of the per-text-node handler: the rest of the text after the last
    accepted match, or the node itself when nothing was accepted. *)
Definition finishText (value : jsstring) (start : nat) (nodes : list Node)
  (change : bool) : list Node :=
  if change then
    if Nat.ltb start (length value)
    then nodes ++ [Text (sliceFrom value (Z.of_nat start))]
    else nodes
  else [Text value].

(** Modelled from the spec: the per-text-node loop of the external
    tree-walking replacement utility (package
    [mdast-util-find-and-replace]), which is not part of this repository.  Each accepted match is replaced by the handler's nodes,
    a rejected match ([false]) restarts the search one character after its
    start, and the spans in between stay plain text.  [None] means the
    loop did not finish within [fuel] rounds. *)
Fixpoint replaceInText (fuel : nat) (find : RegExp) (replace : ReplaceFunction)
  (value : jsstring) (lastIndex start : nat) (nodes : list Node)
  (change : bool) : option (list Node) :=
  match exec find value lastIndex with
  | None => Some (finishText value start nodes change)
  | Some m =>
      match fuel with
      | O => None
      | S fuel' =>
          let position := exec_index m in
          let matchObject := mkMatch (Z.of_nat position) value in
          match replace (exec_whole m) (exec_groups m) matchObject with
          | RFalse =>
              if global find
              then replaceInText fuel' find replace value (position + 1)
                                 start nodes change
              else Some (finishText value start nodes change)
          | r =>
              let nodes1 :=
                if Nat.eqb start position then nodes
                else nodes ++ [Text (slice value (Z.of_nat start)
                                           (Z.of_nat position))] in
              let nodes2 := nodes1 ++ resultNodes r in
              let start' := (position + length (exec_whole m))%nat in
              if global find
              then replaceInText fuel' find replace value start' start'
                                 nodes2 true
              else Some (finishText value start' nodes2 true)
          end
      end
  end.

Definition ignored (ignore : list string) (n : Node) : bool :=
  existsb (String.eqb (nodeType n)) ignore.

(** Modelled from the spec: one pass of the external walk for one table
    entry.  Text below an ignored node is left alone; the nodes a handler
    produced are not visited again in the same pass. *)
Fixpoint visit (ignore : list string) (find : RegExp)
  (replace : ReplaceFunction) (n : Node) : option Node :=
  let children :=
    fix children (l : list Node) : option (list Node) :=
      match l with
      | [] => Some []
      | c :: t =>
          match
            match c with
            | Text v => replaceInText (S (length v)) find replace v 0 0 [] false
            | _ => option_map (fun c' => [c']) (visit ignore find replace c)
            end, children t
          with
          | Some a, Some b => Some (a ++ b)
          | _, _ => None
          end
      end in
  if ignored ignore n then Some n
  else match n with
       | Text _ => Some n
       | Link title url cs => option_map (Link title url) (children cs)
       | Parent ty cs => option_map (Parent ty) (children cs)
       end.

(** Modelled from the spec: [findAndReplace(tree, list, {ignore})], one
    pass per table entry, in table order. *)
Fixpoint findAndReplace (tree : Node) (pairs : list (RegExp * ReplaceFunction))
  (ignore : list string) : option Node :=
  match pairs with
  | [] => Some tree
  | (find, replace) :: more =>
      match visit ignore find replace tree with
      | Some tree' => findAndReplace tree' more ignore
      | None => None
      end
  end.

(** ** lib/index.js: the patterns *)

Definition plainRe (r : Regex) : RegExp := mkRegExp r false false 0.

(** [/^w/i] *)
Definition re_w : RegExp :=
  mkRegExp (RSeq RBegin (RChar (ch "w"))) false true 0.

(** [/[-\d_]$/] *)
Definition labelEndClass : list ClassItem :=
  [CChar (ch "-"); CDigit; CChar (ch "_")].

Definition re_labelEnd : RegExp :=
  plainRe (RSeq (RClass false labelEndClass) REnd).

(** [/_/] *)
Definition re_underscore : RegExp := plainRe (RChar (ch "_")).

(** [/[a-zA-Z\d]/] *)
Definition alnumClass : list ClassItem :=
  [CRange (ch "a") (ch "z"); CRange (ch "A") (ch "Z"); CDigit].

Definition re_alnum : RegExp := plainRe (RClass false alnumClass).

(** The class of the trailing-run pattern of [splitUrl], a bracket
    expression followed by [+$]; its members in source order (the second
    is the double quote, code 34). *)
Definition trailClass : list ClassItem :=
  [CChar (ch "!"); CChar c_quote; CChar (ch "&"); CChar (ch "'");
   CChar (ch ")"); CChar (ch ","); CChar (ch "."); CChar (ch ":");
   CChar (ch ";"); CChar (ch "<"); CChar (ch ">"); CChar (ch "?");
   CChar (ch "]"); CChar (ch "}")].

Definition re_trail : RegExp :=
  plainRe (RSeq (RPlus (RClass false trailClass)) REnd).

(** [[-.\w+]] and [[-\w]] *)
Definition atextClass : list ClassItem :=
  [CChar (ch "-"); CChar (ch "."); CWord; CChar (ch "+")].

Definition labelClass : list ClassItem := [CChar (ch "-"); CWord].

(** [@([-\w]+(?:\.[-\w]+)+)], the tail shared by the five mention and
    email patterns; the label is group 2 of each. *)
Definition atLabel : Regex :=
  RSeq (RChar (ch "@"))
       (RGroup 1
          (RSeq (RPlus (RClass false labelClass))
                (RPlus (RSeq (RChar (ch "."))
                             (RPlus (RClass false labelClass)))))).

(** [/(https?:\/\/|www(?=\.))([-.\w]+)(P)/gi], where the path [P] is any
    number of characters other than space, tab, CR and LF. *)
Definition re_url : RegExp :=
  mkRegExp
    (RSeq (RGroup 0
             (RAlt (RSeq (rlit "http") (RSeq (ROpt (RChar (ch "s"))) (rlit "://")))
                   (RSeq (rlit "www") (RLookahead (RChar (ch "."))))))
          (RSeq (RGroup 1
                   (RPlus (RClass false [CChar (ch "-"); CChar (ch "."); CWord])))
                (RGroup 2
                   (RStar (RClass true [CChar (ch " "); CChar 9; CChar 13;
                                        CChar 10])))))
    true true 3.

(** [/(PREFIX[-.\w+]+)@([-\w]+(?:\.[-\w]+)+)/g] for a literal prefix. *)
Definition re_mention (prefix : string) : RegExp :=
  mkRegExp
    (RSeq (RGroup 0 (RSeq (rlit prefix) (RPlus (RClass false atextClass))))
          atLabel)
    true false 2.

(** [/(![-.\w+]+)@([-\w]+(?:\.[-\w]+)+)/g] *)
Definition re_communityShebang : RegExp := re_mention "!".
(** [/(\/c\/[-.\w+]+)@([-\w]+(?:\.[-\w]+)+)/g] *)
Definition re_communityRelativeLink : RegExp := re_mention "/c/".
(** [/(@[-.\w+]+)@([-\w]+(?:\.[-\w]+)+)/g] *)
Definition re_user : RegExp := re_mention "@".
(** [/(\/u\/[-.\w+]+)@([-\w]+(?:\.[-\w]+)+)/g] *)
Definition re_userRelativeLink : RegExp := re_mention "/u/".
(** [/([-.\w+]+)@([-\w]+(?:\.[-\w]+)+)/g] *)
Definition re_email : RegExp := re_mention "".

(** ** isCorrectDomain *)

(** [parts[i] && (/_/.test(parts[i]) || !/[a-zA-Z\d]/.test(parts[i]))] *)
Definition badLabelAt (parts : list jsstring) (i : Z) : bool :=
  match at_ parts i with
  | Some part =>
      truthy (Some part) &&
      (test re_underscore part || negb (test re_alnum part))
  | None => false
  end.

Definition isCorrectDomain (domain : jsstring) : bool :=
  let parts := split c_dot domain in
  let len := Z.of_nat (length parts) in
  if (len <? 2)
     || existsb (fun part => negb (truthy (Some part))) parts
     || badLabelAt parts (len - 1)
     || badLabelAt parts (len - 2)
  then false
  else true.

(** ** splitUrl *)

(** The variables of the loop of [splitUrl]; [openingParens] is constant. *)
Record SplitState : Type := mkSplit {
  url : jsstring;
  trail : jsstring;
  closingParenIndex : Z;
  closingParens : Z
}.

(** [closingParenIndex !== -1 && openingParens > closingParens] *)
Definition loopCond (openingParens : Z) (st : SplitState) : bool :=
  negb (closingParenIndex st =? -1) && (openingParens >? closingParens st).

(** One round of the loop body. *)
Definition loopBody (st : SplitState) : SplitState :=
  let url' := url st ++ slice (trail st) 0 (closingParenIndex st + 1) in
  let trail' := sliceFrom (trail st) (closingParenIndex st + 1) in
  mkSplit url' trail' (indexOf trail' c_rparen) (closingParens st + 1).

(** The [while] loop, at most [fuel] rounds; [None] when the condition
    still holds after them. *)
Fixpoint while (fuel : nat) (openingParens : Z) (st : SplitState)
  : option SplitState :=
  if loopCond openingParens st then
    match fuel with
    | O => None
    | S fuel' => while fuel' openingParens (loopBody st)
    end
  else Some st.

(** The state on entry to the loop, for a trailing run found at [i]. *)
Definition splitInit (url0 : jsstring) (trailExec : ExecResult) : SplitState :=
  let u := slice url0 0 (Z.of_nat (exec_index trailExec)) in
  let tr := exec_whole trailExec in
  mkSplit u tr (indexOf tr c_rparen) (ccount u c_rparen).

(** [splitUrl(url)]: the kept part and the trail ([None]: [undefined]).
    The loop is given as many rounds as the trail has characters; that
    this always suffices is proved below, so the last branch is never
    taken. *)
Definition splitUrl (url0 : jsstring) : jsstring * option jsstring :=
  match exec re_trail url0 0 with
  | None => (url0, None)
  | Some trailExec =>
      let st0 := splitInit url0 trailExec in
      match while (length (trail st0)) (ccount (url st0) c_lparen) st0 with
      | Some st => (url st, Some (trail st))
      | None => (url0, None)
      end
  end.

(** [url] on entry to the loop: the input without its trailing run of
    closing punctuation (the whole input when it has none). *)
Definition stem (url0 : jsstring) : jsstring :=
  match exec re_trail url0 0 with
  | None => url0
  | Some trailExec => url (splitInit url0 trailExec)
  end.

(** The state after [n] rounds of the loop body. *)
Fixpoint rounds (n : nat) (st : SplitState) : SplitState :=
  match n with
  | O => st
  | S k => rounds k (loopBody st)
  end.

(** The loop invariant of [splitUrl] on input [s]: the two parts make up
    the input, the trail is closing punctuation, the cached index and
    count are up to date, and no closing parenthesis was taken back
    beyond the opening ones. *)
Definition SplitInv (s : jsstring) (openingParens bound : Z) (st : SplitState)
  : Prop :=
  url st ++ trail st = s /\
  forallb (classHas trailClass) (trail st) = true /\
  closingParenIndex st = indexOf (trail st) c_rparen /\
  closingParens st = ccount (url st) c_rparen /\
  ccount (url st) c_lparen = openingParens /\
  closingParens st <= Z.max openingParens bound.

(** The closing punctuation set, as the specification lists it. *)
Definition closingPunctuation : jsstring :=
  [ch "!"; c_quote; ch "&"; ch "'"; ch ")"; ch ","; ch "."; ch ":"; ch ";";
   ch "<"; ch ">"; ch "?"; ch "]"; ch "}"].

(** [trimmed ?? ""] *)
Definition orEmpty (v : option jsstring) : jsstring :=
  match v with
  | Some t => t
  | None => []
  end.

(** Membership in the closing punctuation set. *)
Definition isTrailChar (c : code) : bool := classHas trailClass c.

(** ** The domain rule in the words of the specification

    Reject when there are fewer than two labels, when a label is empty, or
    when one of the last two labels contains an underscore or contains no
    alphanumeric character. *)

Definition lastTwo {A} (l : list A) : list A := skipn (length l - 2) l.

Definition isEmpty (l : jsstring) : bool :=
  match l with
  | [] => true
  | _ :: _ => false
  end.

Definition hasUnderscore (l : jsstring) : bool :=
  existsb (fun c => c =? c_underscore) l.

Definition hasAlnum (l : jsstring) : bool :=
  existsb (classHas alnumClass) l.

Definition specRejectsDomain (d : jsstring) : bool :=
  let labels := split c_dot d in
  Nat.ltb (length labels) 2
  || existsb isEmpty labels
  || existsb (fun l => hasUnderscore l || negb (hasAlnum l)) (lastTwo labels).

(** Whether [exec] found a match. *)
Definition found (r : option ExecResult) : bool :=
  match r with
  | Some _ => true
  | None => false
  end.

(** The string starts with [w] or [W]. *)
Definition startsWithW (s : jsstring) : bool :=
  match s with
  | c :: _ => (c =? ch "w") || (c =? ch "W")
  | [] => false
  end.

(** A character a server label may not end in: [-], a digit or [_]. *)
Definition isLabelEnd (c : code) : bool :=
  (c =? ch "-") || isDigit c || (c =? ch "_").

(** [s] ends in a character satisfying [p]. *)
Definition endsWith (p : code -> bool) (s : jsstring) : bool :=
  match rev s with
  | c :: _ => p c
  | [] => false
  end.

(** ** Serialisation: the escape rules *)

Definition ConstructName : Type := string.

Record Unsafe : Type := mkUnsafe {
  character : code;
  before : Regex;
  after : Regex;
  inConstruct : ConstructName;
  notInConstruct : list ConstructName
}.

Definition inConstruct_ : ConstructName := "phrasing"%string.
Definition notInConstruct_ : list ConstructName :=
  ["autolink"; "link"; "image"; "label"]%string.

(** [gfmAutolinkLiteralToMarkdown().unsafe] *)
Definition gfmAutolinkLiteralToMarkdown : list Unsafe :=
  [ mkUnsafe (ch "@")
      (RClass false [CChar (ch "+"); CChar (ch "-"); CChar (ch "."); CWord])
      (RClass false [CChar (ch "-"); CChar (ch "."); CWord])
      inConstruct_ notInConstruct_;
    mkUnsafe (ch ".")
      (RClass false [CChar (ch "W"); CChar (ch "w")])
      (RClass false [CChar (ch "-"); CChar (ch "."); CWord])
      inConstruct_ notInConstruct_;
    mkUnsafe (ch ":")
      (RClass false [CChar (ch "p"); CChar (ch "s")])
      (RChar (ch "/"))
      inConstruct_ notInConstruct_ ].

(** Whether the one-character string [c] matches [r]. *)
Definition matchesChar (r : Regex) (c : code) : bool := test (plainRe r) [c].

(** Modelled from the spec: when the external serialiser considers a rule
    in scope: inside its [inConstruct], inside none of [notInConstruct]. *)
Definition patternInScope (stack : list ConstructName) (rule : Unsafe) : bool :=
  existsb (String.eqb (inConstruct rule)) stack
  && negb (existsb (fun c => existsb (String.eqb c) stack) (notInConstruct rule)).

(** ** Character classifiers for the examples

    The two classifiers of [micromark-util-character] on Basic Latin. *)

Definition latinWhitespace (c : option code) : bool :=
  match c with
  | Some c => inRange 9 13 c || (c =? 32)
  | None => false
  end.

Definition latinPunctuation (c : option code) : bool :=
  match c with
  | Some c =>
      inRange 33 47 c || inRange 58 64 c || inRange 91 96 c || inRange 123 126 c
  | None => false
  end.

(** Basic Latin letters and digits. *)
Definition isAlnum (c : code) : bool := classHas alnumClass c.

(** ** The handlers and the transform

    [unicodeWhitespace] and [unicodePunctuation] come from
    [micromark-util-character]; the program is parametric in them.  Their
    argument is the result of [charCodeAt], [None] for [NaN]. *)

Section Handlers.

Variable unicodeWhitespace : option code -> bool.
Variable unicodePunctuation : option code -> bool.

(** [code === n] for the result of [charCodeAt]. *)
Definition codeIs (c : option code) (n : code) : bool :=
  match c with
  | Some x => x =? n
  | None => false
  end.

(** [previous(match, email)] *)
Definition previous (m : RegExpMatchObject) (email : bool) : bool :=
  let code := charCodeAt (input m) (index m - 1) in
  ((index m =? 0) || unicodeWhitespace code || unicodePunctuation code)
  && (negb email || negb (codeIs code c_slash)).

(** [findUrl(_, protocol, domain, path, match)] *)
Definition findUrl (whole protocol domain path : jsstring)
  (m : RegExpMatchObject) : ReplaceResult :=
  if negb (previous m false) then RFalse
  else
    let '(prefix, protocol, domain) :=
      if test re_w protocol
      then (lit "http://", [], protocol ++ domain)
      else ([], protocol, domain) in
    if negb (isCorrectDomain domain) then RFalse
    else
      let parts := splitUrl (domain ++ path) in
      if negb (truthy (Some (fst parts))) then RFalse
      else
        let result :=
          Link None (prefix ++ protocol ++ fst parts)
               [Text (protocol ++ fst parts)] in
        match snd parts with
        | Some (c :: t) => RMany [result; Text (c :: t)]
        | _ => ROne result
        end.

(** [buildFindCommunity(connectedInstance, prefix)] *)
Definition buildFindCommunity (connectedInstance prefix : jsstring)
  (whole atext label : jsstring) (m : RegExpMatchObject) : ReplaceResult :=
  if negb (previous m true) || test re_labelEnd label then RFalse
  else
    let communityName := sliceFrom atext (strlen prefix) in
    let server := label in
    ROne (Link None
            (lit "https://" ++ connectedInstance ++ lit "/c/"
               ++ communityName ++ lit "@" ++ server)
            [Text (prefix ++ communityName ++ lit "@" ++ server)]).

(** [buildFindUser(connectedInstance, prefix)] *)
Definition buildFindUser (connectedInstance prefix : jsstring)
  (whole atext label : jsstring) (m : RegExpMatchObject) : ReplaceResult :=
  if negb (previous m true) || test re_labelEnd label then RFalse
  else
    let userName := sliceFrom atext (strlen prefix) in
    let server := label in
    ROne (Link None
            (lit "https://" ++ connectedInstance ++ lit "/u/"
               ++ userName ++ lit "@" ++ server)
            [Text (prefix ++ userName ++ lit "@" ++ server)]).

(** [findEmail(_, atext, label, match)] *)
Definition findEmail (whole atext label : jsstring) (m : RegExpMatchObject)
  : ReplaceResult :=
  if negb (previous m true) || test re_labelEnd label then RFalse
  else
    let code := charCodeAt (input m) (index m - 1) in
    if codeIs code 33 || codeIs code 64 then RFalse
    else
      ROne (Link None (lit "mailto:" ++ atext ++ lit "@" ++ label)
              [Text (atext ++ lit "@" ++ label)]).

(** The pattern table of [transformGfmAutolinkLiterals], in source order. *)
Definition patternTable (connectedInstance : jsstring)
  : list (RegExp * ReplaceFunction) :=
  let findCommunityShebang := buildFindCommunity connectedInstance (lit "!") in
  let findCommunityRelativeLink :=
    buildFindCommunity connectedInstance (lit "/c/") in
  let findUser := buildFindUser connectedInstance (lit "@") in
  let findUserRelativeLink := buildFindUser connectedInstance (lit "/u/") in
  [ (re_url, spread3 findUrl);
    (re_communityShebang, spread2 findCommunityShebang);
    (re_communityRelativeLink, spread2 findCommunityRelativeLink);
    (re_user, spread2 findUser);
    (re_userRelativeLink, spread2 findUserRelativeLink);
    (re_email, spread2 findEmail) ].

(** [buildTransformGfmAutolinkLiterals(connectedInstance)(tree)] *)
Definition transformGfmAutolinkLiterals (connectedInstance : jsstring)
  (tree : Node) : option Node :=
  findAndReplace tree (patternTable connectedInstance)
                 ["link"; "linkReference"]%string.

(** A paragraph holding one text node. *)
Definition paragraph (s : string) : Node := Parent "paragraph" [Text (lit s)].

(** ** A relational reading of the matcher

    [Matches ic r x y]: the pattern [r] can take the matcher from state
    [x] to state [y].  Every result of [rmatch] is reached this way
    ([rmatch_sound]); the relation forgets the order in which the
    alternatives are tried. *)

Inductive Matches (ic : bool) : Regex -> MState -> MState -> Prop :=
| M_Empty x : Matches ic REmpty x x
| M_Char c x c0 t :
    rest x = c0 :: t -> classMatches ic [CChar c] c0 = true ->
    Matches ic (RChar c) x (advance x t)
| M_Class neg items x c0 t :
    rest x = c0 :: t -> xorb neg (classMatches ic items c0) = true ->
    Matches ic (RClass neg items) x (advance x t)
| M_Seq a b x y z :
    Matches ic a x y -> Matches ic b y z -> Matches ic (RSeq a b) x z
| M_AltL a b x y : Matches ic a x y -> Matches ic (RAlt a b) x y
| M_AltR a b x y : Matches ic b x y -> Matches ic (RAlt a b) x y
| M_StarO a x : Matches ic (RStar a) x x
| M_StarS a x y z :
    Matches ic a x y -> Matches ic (RStar a) y z -> Matches ic (RStar a) x z
| M_Plus a x y z :
    Matches ic a x y -> Matches ic (RStar a) y z -> Matches ic (RPlus a) x z
| M_OptO a x : Matches ic (ROpt a) x x
| M_OptS a x y : Matches ic a x y -> Matches ic (ROpt a) x y
| M_Group n a x y :
    Matches ic a x y -> Matches ic (RGroup n a) x (capture n x y)
| M_Look a x y : Matches ic a x y -> Matches ic (RLookahead a) x x
| M_Begin x : pos x = 0%nat -> Matches ic RBegin x x
| M_End x : rest x = [] -> Matches ic REnd x x.

(** Patterns without capture groups. *)
Fixpoint groupFree (r : Regex) : bool :=
  match r with
  | RSeq a b | RAlt a b => groupFree a && groupFree b
  | RStar a | RPlus a | ROpt a | RLookahead a => groupFree a
  | RGroup _ _ => false
  | _ => true
  end.

(** ** The text of a tree

    The values of the text nodes of a tree, in document order. *)

Fixpoint textOf (n : Node) : jsstring :=
  let all :=
    fix all (l : list Node) : jsstring :=
      match l with
      | [] => []
      | c :: t => textOf c ++ all t
      end in
  match n with
  | Text v => v
  | Link _ _ cs => all cs
  | Parent _ cs => all cs
  end.

Definition textOfList (ns : list Node) : jsstring := flat_map textOf ns.

(** Every text node of the tree is the root or lies below an ignored
    node. *)
Fixpoint noFreeText (ignore : list string) (n : Node) : bool :=
  let all :=
    fix all (l : list Node) : bool :=
      match l with
      | [] => true
      | c :: t =>
          match c with
          | Text _ => false
          | _ => noFreeText ignore c
          end && all t
      end in
  ignored ignore n ||
  match n with
  | Text _ => true
  | Link _ _ cs => all cs
  | Parent _ cs => all cs
  end.

(** A table entry that keeps the text: the pattern is global and never
    matches the empty string, and the handler either rejects a match or
    returns nodes whose text is the match. *)
Definition keepsText (find : RegExp) (replace : ReplaceFunction) : Prop :=
  global find = true /\
  forall v lastIndex m,
    exec find v lastIndex = Some m ->
    exec_whole m <> [] /\
    (replace (exec_whole m) (exec_groups m)
             (mkMatch (Z.of_nat (exec_index m)) v) = RFalse \/
     textOfList
       (resultNodes (replace (exec_whole m) (exec_groups m)
                             (mkMatch (Z.of_nat (exec_index m)) v)))
     = exec_whole m).

(** A table entry that needs a dot: the pattern is global and the handler
    rejects every match found in a text without a dot. *)
Definition needsDot (find : RegExp) (replace : ReplaceFunction) : Prop :=
  global find = true /\
  forall v lastIndex m,
    ~ In c_dot v ->
    exec find v lastIndex = Some m ->
    replace (exec_whole m) (exec_groups m)
            (mkMatch (Z.of_nat (exec_index m)) v) = RFalse.

(** * Properties *)

(** ** Strings *)

Lemma strlen_nonneg (s : jsstring) : 0 <= strlen s.
Proof. unfold strlen; lia. Qed.

Lemma relIndex_nonneg (len i : Z) : 0 <= i -> relIndex len i = Z.min i len.
Proof.
  intros H. unfold relIndex.
  destruct (i <? 0) eqn:E; [apply Z.ltb_lt in E; lia | reflexivity].
Qed.

Lemma slice_prefix (s : jsstring) (n : nat) :
  slice s 0 (Z.of_nat n) = firstn n s.
Proof.
  unfold slice, strlen.
  rewrite !relIndex_nonneg by lia.
  replace (Z.min 0 (Z.of_nat (length s))) with 0 by lia.
  rewrite Z.sub_0_r. change (Z.to_nat 0) with 0%nat. rewrite skipn_O.
  destruct (Nat.le_ge_cases n (length s)) as [H|H].
  - rewrite Z.min_l by lia. now rewrite Nat2Z.id.
  - rewrite Z.min_r by lia. rewrite Nat2Z.id.
    rewrite !firstn_all2; auto.
Qed.

Lemma sliceFrom_skipn (s : jsstring) (n : nat) :
  sliceFrom s (Z.of_nat n) = skipn n s.
Proof.
  unfold sliceFrom, slice, strlen.
  rewrite !relIndex_nonneg by lia.
  rewrite Z.min_id.
  destruct (Nat.le_ge_cases n (length s)) as [H|H].
  - rewrite Z.min_l by lia. rewrite Nat2Z.id.
    apply firstn_all2. rewrite length_skipn. lia.
  - rewrite Z.min_r by lia. rewrite Nat2Z.id.
    rewrite !skipn_all2 by lia. now rewrite firstn_nil.
Qed.

Lemma sliceFrom_prefix (p s : jsstring) : sliceFrom (p ++ s) (strlen p) = s.
Proof.
  unfold strlen. rewrite sliceFrom_skipn.
  rewrite skipn_app, Nat.sub_diag, skipn_all. reflexivity.
Qed.

Lemma ccount_app (a b : jsstring) (c : code) :
  ccount (a ++ b) c = ccount a c + ccount b c.
Proof. induction a as [|x a IH]; simpl; [reflexivity | rewrite IH; lia]. Qed.

Lemma ccount_nonneg (a : jsstring) (c : code) : 0 <= ccount a c.
Proof. induction a as [|x a IH]; simpl; [lia | destruct (x =? c); lia]. Qed.

Lemma ccount_none (p : code -> bool) (a : jsstring) (c : code) :
  forallb p a = true -> p c = false -> ccount a c = 0.
Proof.
  intros Ha Hc. induction a as [|x a IH]; simpl in *; [reflexivity|].
  apply andb_prop in Ha as [Hx Ha]. rewrite (IH Ha).
  destruct (x =? c) eqn:E; [|reflexivity].
  apply Z.eqb_eq in E. subst. congruence.
Qed.

(** [indexOf] finds the first occurrence: the prefix up to and including
    it holds the character exactly once. *)
Lemma indexOfFrom_spec (c : code) (s : jsstring) (i : Z) :
  (indexOfFrom c s i = -1 /\ 0 <= i -> ccount s c = 0) /\
  (0 <= i ->
   indexOfFrom c s i = -1 \/
   exists k, indexOfFrom c s i = i + Z.of_nat k /\ (k < length s)%nat /\
             ccount (firstn (S k) s) c = 1).
Proof.
  revert i. induction s as [|x s IH]; intros i; simpl.
  - split; [reflexivity | intros; now left].
  - destruct (x =? c) eqn:E.
    + split; [lia|]. intros Hi. right. exists 0%nat. simpl.
      repeat split; lia.
    + destruct (IH (i + 1)) as [IH1 IH2]. split.
      * intros [H Hi]. rewrite IH1; [reflexivity | split; [exact H | lia]].
      * intros Hi. destruct IH2 as [H | (k & Hk & Hlt & Hc)]; [lia | now left |].
        right. exists (S k). repeat split; [lia | lia |].
        rewrite Hc. reflexivity.
Qed.

Lemma indexOf_found (s : jsstring) (c : code) :
  indexOf s c <> -1 ->
  exists k, indexOf s c = Z.of_nat k /\ (k < length s)%nat /\
            ccount (firstn (S k) s) c = 1.
Proof.
  intros H. unfold indexOf in *.
  destruct (indexOfFrom_spec c s 0) as [_ H2].
  destruct H2 as [H2 | (k & Hk & Hlt & Hc)]; [lia | contradiction |].
  exists k. repeat split; [lia | exact Hlt | exact Hc].
Qed.

(** ** The regular expression tests of the source *)

Lemma classMatches_plain (items : list ClassItem) (c : code) :
  classMatches false items c = classHas items c.
Proof. unfold classMatches. simpl. apply orb_false_r. Qed.

Lemma test_unfold (r : Regex) (s : jsstring) :
  test (plainRe r) s = found (scan (plainRe r) 0 s).
Proof. reflexivity. Qed.

(** A one-class pattern: some character of the string is in the class. *)
Lemma scan_class (items : list ClassItem) (s : jsstring) (p : nat) :
  found (scan (plainRe (RClass false items)) p s) = existsb (classHas items) s.
Proof.
  revert p. induction s as [|x s IH]; intros p; [reflexivity|].
  cbn [scan plainRe pattern ignoreCase groupCount rmatch rest xorb existsb].
  rewrite classMatches_plain.
  destruct (classHas items x); [reflexivity | apply IH].
Qed.

Lemma test_class (items : list ClassItem) (s : jsstring) :
  test (plainRe (RClass false items)) s = existsb (classHas items) s.
Proof. rewrite test_unfold. apply scan_class. Qed.

Lemma scan_char (c : code) (s : jsstring) (p : nat) :
  found (scan (plainRe (RChar c)) p s) = existsb (fun x => x =? c) s.
Proof.
  revert p. induction s as [|x s IH]; intros p; [reflexivity|].
  cbn [scan plainRe pattern ignoreCase groupCount rmatch rest existsb].
  rewrite classMatches_plain. cbn [classHas existsb itemHas].
  rewrite orb_false_r.
  destruct (x =? c); [reflexivity | apply IH].
Qed.

Lemma test_underscore (s : jsstring) : test re_underscore s = hasUnderscore s.
Proof. unfold re_underscore. rewrite test_unfold. apply scan_char. Qed.

Lemma test_alnum (s : jsstring) : test re_alnum s = hasAlnum s.
Proof. apply test_class. Qed.

(** A class anchored at the end: the last character is in the class. *)
Lemma endsWith_cons (p : code -> bool) (x y : code) (s : jsstring) :
  endsWith p (x :: y :: s) = endsWith p (y :: s).
Proof.
  unfold endsWith. simpl rev.
  destruct (rev s ++ [y]) as [|z l] eqn:E.
  - destruct (rev s); discriminate.
  - reflexivity.
Qed.

Lemma scan_classEnd (items : list ClassItem) (s : jsstring) (p : nat) :
  found (scan (plainRe (RSeq (RClass false items) REnd)) p s)
  = endsWith (classHas items) s.
Proof.
  revert p. induction s as [|x s IH]; intros p; [reflexivity|].
  cbn [scan plainRe pattern ignoreCase groupCount rmatch rest xorb].
  rewrite classMatches_plain.
  destruct s as [|y s].
  - unfold endsWith. simpl.
    destruct (classHas items x); reflexivity.
  - rewrite endsWith_cons, <- (IH (S p)).
    destruct (classHas items x); reflexivity.
Qed.

Lemma test_labelEnd (label : jsstring) :
  test re_labelEnd label = endsWith (classHas labelEndClass) label.
Proof. unfold re_labelEnd. rewrite test_unfold. apply scan_classEnd. Qed.

Lemma scan_w_later (s : jsstring) (p : nat) : scan re_w (S p) s = None.
Proof.
  revert p. induction s as [|x s IH]; intros p; [reflexivity|].
  cbn [scan re_w pattern ignoreCase groupCount rmatch pos Nat.eqb].
  apply IH.
Qed.

Lemma classMatches_w (x : code) :
  classMatches true [CChar (ch "w")] x = (x =? ch "w") || (x =? ch "W").
Proof.
  unfold classMatches, classHas, itemHas, swapCase, inRange.
  change (ch "w") with 119. change (ch "W") with 87.
  cbn [existsb andb]. zbool.
Qed.

Lemma test_w (s : jsstring) : test re_w s = startsWithW s.
Proof.
  unfold test, exec. cbn [global re_w Nat.ltb Nat.leb skipn].
  destruct s as [|x s]; [reflexivity|].
  cbn [scan re_w pattern ignoreCase groupCount rmatch pos rest Nat.eqb].
  rewrite scan_w_later, classMatches_w.
  unfold startsWithW. destruct ((x =? ch "w") || (x =? ch "W")); reflexivity.
Qed.

(** ** The trailing-run pattern: a class, [+], then [$] *)

Lemma rmatch_class (items : list ClassItem) (k : Cont) (y : MState) :
  rmatch false (RClass false items) k y
  = match rest y with
    | [] => None
    | c :: t => if classHas items c then k (advance y t) else None
    end.
Proof.
  cbn [rmatch xorb]. destruct (rest y); [reflexivity|].
  now rewrite classMatches_plain.
Qed.

Lemma greedy_class_end (items : list ClassItem) (n : nat) (x : MState) :
  (length (rest x) <= n)%nat ->
  greedy (rmatch false (RClass false items))
         (fun y => rmatch false REnd Some y) n x
  = if forallb (classHas items) (rest x)
    then Some (mkMState (pos x + length (rest x)) [] (caps x))
    else None.
Proof.
  set (step := rmatch false (RClass false items)).
  set (k := fun y => rmatch false REnd Some y).
  assert (Hk : forall y, k y = match rest y with [] => Some y | _ :: _ => None end)
    by reflexivity.
  revert x. induction n as [|n IH]; intros [p s c]; cbn [rest pos caps]; intros Hn.
  - destruct s; [|simpl in Hn; lia]. cbn [greedy]. rewrite Hk. simpl.
    now rewrite Nat.add_0_r.
  - cbn [greedy]. unfold step at 1. rewrite rmatch_class. fold step.
    cbn [rest]. destruct s as [|x s].
    + rewrite Hk. simpl. now rewrite Nat.add_0_r.
    + cbn [forallb]. destruct (classHas items x); cbn [andb].
      * cbn [advance pos]. rewrite (proj2 (Nat.eqb_neq (S p) p)) by lia.
        rewrite IH by (simpl in *; lia). cbn [advance rest pos caps length].
        rewrite Nat.add_succ_comm.
        destruct (forallb (classHas items) s); [reflexivity | now rewrite Hk].
      * now rewrite Hk.
Qed.

Lemma rmatch_run_end (items : list ClassItem) (p : nat) (s : jsstring)
  (c : list (option jsstring)) :
  rmatch false (RSeq (RPlus (RClass false items)) REnd) Some (mkMState p s c)
  = match s with
    | [] => None
    | _ :: _ =>
        if forallb (classHas items) s
        then Some (mkMState (p + length s) [] c)
        else None
    end.
Proof.
  change (rmatch false (RSeq (RPlus (RClass false items)) REnd) Some
                 (mkMState p s c))
    with (rmatch false (RClass false items)
            (fun y => greedy (rmatch false (RClass false items))
                             (fun y => rmatch false REnd Some y)
                             (length (rest y)) y)
            (mkMState p s c)).
  rewrite rmatch_class. cbn [rest]. destruct s as [|x s]; [reflexivity|].
  cbn [forallb]. destruct (classHas items x); cbn [andb]; [|reflexivity].
  rewrite greedy_class_end by lia. cbn [advance rest pos caps length].
  rewrite Nat.add_succ_comm.
  destruct (forallb (classHas items) s); reflexivity.
Qed.

(** The leftmost match of the pattern is the maximal run of class
    characters at the end of the string. *)
Lemma scan_run_end (items : list ClassItem) (s : jsstring) (p : nat)
  (r : ExecResult) :
  scan (plainRe (RSeq (RPlus (RClass false items)) REnd)) p s = Some r ->
  exists pre,
    s = pre ++ exec_whole r /\
    exec_index r = (p + length pre)%nat /\
    forallb (classHas items) (exec_whole r) = true /\
    exec_whole r <> [] /\
    endsWith (classHas items) pre = false.
Proof.
  revert p. induction s as [|x s IH]; intros p.
  - cbn [scan plainRe pattern ignoreCase groupCount]. rewrite rmatch_run_end.
    discriminate.
  - cbn [scan plainRe pattern ignoreCase groupCount]. rewrite rmatch_run_end.
    destruct (forallb (classHas items) (x :: s)) eqn:F.
    + intros H. injection H as <-. cbn [exec_whole exec_index pos].
      replace (p + S (length s) - p)%nat with (length (x :: s)) by (simpl; lia).
      rewrite firstn_all. exists []. cbn [app length].
      repeat split; [lia | exact F | discriminate].
    + intros H. destruct (IH (S p) H) as (pre & Hs & Hi & Hall & Hne & Hend).
      exists (x :: pre). cbn [app length]. repeat split;
        [now rewrite Hs at 1 | lia | exact Hall | exact Hne |].
      destruct pre as [|y pre].
      * unfold endsWith. simpl. simpl in Hs. subst s.
        simpl in F. rewrite Hall, andb_true_r in F. exact F.
      * rewrite endsWith_cons. exact Hend.
Qed.

Lemma exec_trail (s : jsstring) (r : ExecResult) :
  exec re_trail s 0 = Some r ->
  exists pre,
    s = pre ++ exec_whole r /\
    exec_index r = length pre /\
    forallb isTrailChar (exec_whole r) = true /\
    exec_whole r <> [] /\
    endsWith isTrailChar pre = false.
Proof.
  unfold exec. cbn [global re_trail plainRe Nat.ltb Nat.leb skipn].
  intros H. apply scan_run_end in H. exact H.
Qed.

Lemma splitInit_exec (s : jsstring) (r : ExecResult) :
  exec re_trail s 0 = Some r ->
  s = url (splitInit s r) ++ trail (splitInit s r) /\
  forallb isTrailChar (trail (splitInit s r)) = true /\
  trail (splitInit s r) <> [] /\
  endsWith isTrailChar (url (splitInit s r)) = false.
Proof.
  intros H. destruct (exec_trail s r H) as (pre & Hs & Hi & Hall & Hne & Hend).
  unfold splitInit. cbn [url trail]. rewrite Hi, slice_prefix.
  assert (Hpre : firstn (length pre) s = pre).
  { rewrite Hs, firstn_app, Nat.sub_diag, firstn_all, firstn_O. apply app_nil_r. }
  rewrite Hpre. repeat split; assumption.
Qed.

(** ** splitUrl: the loop *)

Lemma isTrailChar_closing (c : code) :
  isTrailChar c = true <-> In c closingPunctuation.
Proof.
  unfold isTrailChar, classHas, trailClass, closingPunctuation.
  cbn [existsb itemHas In].
  rewrite !orb_true_iff, !Z.eqb_eq.
  intuition (auto; try discriminate).
Qed.

Lemma lparen_not_trail : isTrailChar c_lparen = false.
Proof. reflexivity. Qed.

Lemma forallb_firstn {A} (p : A -> bool) (n : nat) (l : list A) :
  forallb p l = true -> forallb p (firstn n l) = true.
Proof.
  intros H. rewrite <- (firstn_skipn n l), forallb_app in H.
  now apply andb_prop in H.
Qed.

Lemma forallb_skipn {A} (p : A -> bool) (n : nat) (l : list A) :
  forallb p l = true -> forallb p (skipn n l) = true.
Proof.
  intros H. rewrite <- (firstn_skipn n l), forallb_app in H.
  now apply andb_prop in H.
Qed.

Lemma rounds_succ (n : nat) (st : SplitState) :
  rounds (S n) st = loopBody (rounds n st).
Proof. revert st. induction n as [|n IH]; intros st; [reflexivity|]. apply IH. Qed.

Lemma SplitInv_init (s : jsstring) (r : ExecResult) :
  exec re_trail s 0 = Some r ->
  SplitInv s (ccount (url (splitInit s r)) c_lparen)
           (ccount (url (splitInit s r)) c_rparen) (splitInit s r).
Proof.
  intros H. destruct (splitInit_exec s r H) as (Hs & Hall & _ & _).
  unfold SplitInv. cbn [closingParenIndex closingParens].
  split; [now rewrite <- Hs|]. split; [exact Hall|].
  repeat (split; [reflexivity|]).
  change (closingParens (splitInit s r))
    with (ccount (url (splitInit s r)) c_rparen). lia.
Qed.

(** One round keeps the invariant and strictly shortens the trail. *)
Lemma SplitInv_body (s : jsstring) (op b : Z) (st : SplitState) :
  SplitInv s op b st -> loopCond op st = true ->
  SplitInv s op b (loopBody st) /\
  (length (trail (loopBody st)) < length (trail st))%nat.
Proof.
  intros (Hs & Hall & Hidx & Hcl & Hop & Hle) Hc.
  unfold loopCond in Hc. apply andb_prop in Hc as [Hne Hlt].
  apply negb_true_iff, Z.eqb_neq in Hne. apply Z.gtb_lt in Hlt.
  rewrite Hidx in Hne.
  destruct (indexOf_found _ _ Hne) as (k & Hk & Hklt & Hone).
  unfold loopBody. rewrite Hidx, Hk.
  replace (Z.of_nat k + 1) with (Z.of_nat (S k)) by lia.
  rewrite slice_prefix, sliceFrom_skipn. cbn [url trail closingParenIndex closingParens].
  split; [unfold SplitInv; cbn [url trail closingParenIndex closingParens];
          split; [|split; [|split; [|split; [|split]]]]|].
  - now rewrite <- app_assoc, firstn_skipn.
  - now apply forallb_skipn.
  - reflexivity.
  - rewrite ccount_app, Hone. lia.
  - rewrite ccount_app, Hop.
    rewrite (ccount_none isTrailChar); [lia | | exact lparen_not_trail].
    now apply forallb_firstn.
  - lia.
  - rewrite length_skipn. lia.
Qed.

(** With as many rounds of fuel as the trail has characters the loop
    finishes, after at most that many rounds. *)
Lemma while_rounds (s : jsstring) (op b : Z) (fuel : nat) (st : SplitState) :
  SplitInv s op b st -> (length (trail st) <= fuel)%nat ->
  exists n,
    (n <= length (trail st))%nat /\
    while fuel op st = Some (rounds n st) /\
    SplitInv s op b (rounds n st) /\
    loopCond op (rounds n st) = false /\
    forall k, (k < n)%nat ->
      loopCond op (rounds k st) = true /\
      (length (trail (rounds (S k) st)) < length (trail (rounds k st)))%nat.
Proof.
  revert st. induction fuel as [|fuel IH]; intros st HI Hf.
  - destruct (loopCond op st) eqn:Hc.
    + destruct (SplitInv_body _ _ _ _ HI Hc) as [_ Hlt]. lia.
    + exists 0%nat. cbn [while rounds]. rewrite Hc.
      conj; [lia | reflexivity | exact HI | reflexivity | intros; lia].
  - destruct (loopCond op st) eqn:Hc.
    + destruct (SplitInv_body _ _ _ _ HI Hc) as [HI' Hlt].
      destruct (IH (loopBody st) HI') as (n & Hn & Hw & HIn & Hcn & Hk); [lia|].
      exists (S n). cbn [while]. rewrite Hc. cbn [rounds].
      conj; [lia | exact Hw | exact HIn | exact Hcn |].
      intros [|k] Hkn; [split; [exact Hc | exact Hlt] | apply Hk; lia].
    + exists 0%nat. cbn [while rounds]. rewrite Hc.
      conj; [lia | reflexivity | exact HI | reflexivity | intros; lia].
Qed.

(** What [splitUrl] returns, both ways through it. *)
Lemma splitUrl_cases (s : jsstring) :
  (exec re_trail s 0 = None /\ splitUrl s = (s, None) /\ stem s = s) \/
  (exists r n,
     exec re_trail s 0 = Some r /\
     let st0 := splitInit s r in
     let op := ccount (url st0) c_lparen in
     stem s = url st0 /\
     (n <= length (trail st0))%nat /\
     while (length (trail st0)) op st0 = Some (rounds n st0) /\
     splitUrl s = (url (rounds n st0), Some (trail (rounds n st0))) /\
     SplitInv s op (ccount (url st0) c_rparen) (rounds n st0) /\
     loopCond op (rounds n st0) = false /\
     forall k, (k < n)%nat ->
       loopCond op (rounds k st0) = true /\
       (length (trail (rounds (S k) st0)) < length (trail (rounds k st0)))%nat).
Proof.
  unfold splitUrl, stem. destruct (exec re_trail s 0) as [r|] eqn:E.
  - right. exists r.
    destruct (while_rounds s _ _ (length (trail (splitInit s r))) _
                (SplitInv_init s r E) (Nat.le_refl _))
      as (n & Hn & Hw & HI & Hc & Hk).
    exists n. cbn zeta. rewrite Hw. conj; try assumption; reflexivity.
  - left. conj; reflexivity.
Qed.

(** ** splitUrl: the claims *)

(** C4. For every string [s], if [splitUrl s = (kept, trimmed)] then
    [kept] followed by [trimmed] (the empty string when [trimmed] is
    [undefined]) is [s] again, and every character of [trimmed] belongs
    to the closing punctuation set. *)
Theorem splitUrl_reconstructs (s kept : jsstring) (trimmed : option jsstring) :
  splitUrl s = (kept, trimmed) ->
  kept ++ orEmpty trimmed = s /\
  forall c, In c (orEmpty trimmed) -> In c closingPunctuation.
Proof.
  intros H.
  destruct (splitUrl_cases s) as [(_ & E & _) | (r & n & _ & Hr)].
  - rewrite E in H. injection H as <- <-. cbn [orEmpty].
    split; [apply app_nil_r | intros c []].
  - cbn zeta in Hr. destruct Hr as (_ & _ & _ & E & HI & _).
    rewrite E in H. injection H as <- <-. cbn [orEmpty].
    destruct HI as (Hs & Hall & _). split; [exact Hs|].
    intros c Hc. apply isTrailChar_closing.
    rewrite forallb_forall in Hall. now apply Hall.
Qed.

Lemma splitUrl_reconstructs_witness :
  lit "example.org/a_(b)" ++ orEmpty (Some (lit ").")) = lit "example.org/a_(b))."
  /\ forall c, In c (orEmpty (Some (lit ")."))) -> In c closingPunctuation.
Proof.
  apply (splitUrl_reconstructs (lit "example.org/a_(b)).")
           (lit "example.org/a_(b)") (Some (lit ")."))).
  vm_compute. reflexivity.
Defined.

(** C5, as the code has it.  The kept part has as many opening
    parentheses as the input has before its trailing punctuation run, and
    at most as many closing ones as the larger of that number and the
    number of closing parentheses already before the run: rebalancing
    never takes back a closing parenthesis that has no partner. *)
Theorem splitUrl_paren_balance (s : jsstring) :
  ccount (fst (splitUrl s)) c_lparen = ccount (stem s) c_lparen /\
  ccount (fst (splitUrl s)) c_rparen
  <= Z.max (ccount (stem s) c_lparen) (ccount (stem s) c_rparen).
Proof.
  destruct (splitUrl_cases s) as [(_ & E & St) | (r & n & _ & Hr)].
  - rewrite E, St. cbn [fst]. split; [reflexivity | lia].
  - cbn zeta in Hr. destruct Hr as (St & _ & _ & E & HI & _).
    rewrite E, St. cbn [fst].
    destruct HI as (_ & _ & _ & Hcl & Hop & Hle).
    split; [exact Hop | now rewrite <- Hcl].
Qed.

(** C5 as stated fails: a closing parenthesis inside the kept part stays
    there, whether or not it has a partner. *)
Lemma splitUrl_paren_counterexample :
  fst (splitUrl (lit "example.org/a)b.")) = lit "example.org/a)b" /\
  ~ (ccount (fst (splitUrl (lit "example.org/a)b."))) c_rparen
     <= ccount (fst (splitUrl (lit "example.org/a)b."))) c_lparen).
Proof.
  split; [vm_compute; reflexivity|].
  intros H. vm_compute in H. apply H. reflexivity.
Qed.

(** C8. [splitUrl] terminates on every input.  Without a trailing run it
    returns at once; otherwise the loop, given one round of fuel per
    character of the trailing run, stops after [n] rounds with [n] at most
    the length of the run, every round taken strictly shortens the trail,
    and the state it stops in is what [splitUrl] returns. *)
Theorem splitUrl_terminates (s : jsstring) :
  match exec re_trail s 0 with
  | None => splitUrl s = (s, None)
  | Some trailExec =>
      let st0 := splitInit s trailExec in
      let openingParens := ccount (url st0) c_lparen in
      exists n,
        (n <= length (trail st0))%nat /\
        while (length (trail st0)) openingParens st0 = Some (rounds n st0) /\
        splitUrl s = (url (rounds n st0), Some (trail (rounds n st0))) /\
        loopCond openingParens (rounds n st0) = false /\
        forall k, (k < n)%nat ->
          loopCond openingParens (rounds k st0) = true /\
          (length (trail (rounds (S k) st0))
           < length (trail (rounds k st0)))%nat
  end.
Proof.
  destruct (splitUrl_cases s) as [(E0 & E & _) | (r & n & E0 & Hr)].
  - now rewrite E0.
  - rewrite E0. cbn zeta in *.
    destruct Hr as (_ & Hn & Hw & E & _ & Hc & Hk).
    exists n. conj; assumption.
Qed.

(** ** isCorrectDomain *)

Lemma last_two_inv {A} (l : list A) :
  (2 <= length l)%nat -> exists front a b, l = front ++ [a; b].
Proof.
  intros H. destruct (rev l) as [|b [|a t]] eqn:E.
  - apply (f_equal (@length A)) in E. rewrite length_rev in E. simpl in E. lia.
  - apply (f_equal (@length A)) in E. rewrite length_rev in E. simpl in E. lia.
  - exists (rev t), a, b. rewrite <- (rev_involutive l), E. simpl.
    now rewrite <- app_assoc.
Qed.

Lemma at_app_length {A} (front back : list A) (k : nat) :
  at_ (front ++ back) (Z.of_nat (length front + k)) = nth_error back k.
Proof.
  unfold at_. destruct (Z.of_nat (length front + k) <? 0) eqn:E;
    [apply Z.ltb_lt in E; lia|].
  rewrite Nat2Z.id, nth_error_app2 by lia. f_equal. lia.
Qed.

Lemma lastTwo_app {A} (front : list A) (a b : A) :
  lastTwo (front ++ [a; b]) = [a; b].
Proof.
  unfold lastTwo. rewrite length_app. simpl length.
  replace (length front + 2 - 2)%nat with (length front) by lia.
  rewrite skipn_app, Nat.sub_diag, skipn_all. reflexivity.
Qed.

Lemma badLabelAt_some (parts : list jsstring) (i : Z) (part : jsstring) :
  at_ parts i = Some part ->
  badLabelAt parts i
  = negb (isEmpty part) && (hasUnderscore part || negb (hasAlnum part)).
Proof.
  intros H. unfold badLabelAt. rewrite H, test_underscore, test_alnum.
  destruct part; reflexivity.
Qed.

Lemma existsb_empty (parts : list jsstring) :
  existsb (fun part => negb (truthy (Some part))) parts = existsb isEmpty parts.
Proof.
  induction parts as [|[|c t] parts IH]; simpl; [reflexivity | reflexivity | exact IH].
Qed.

Lemma isCorrectDomain_negb (d : jsstring) :
  isCorrectDomain d = negb (specRejectsDomain d).
Proof.
  unfold isCorrectDomain, specRejectsDomain. cbn zeta.
  set (parts := split c_dot d).
  rewrite existsb_empty.
  destruct (Nat.ltb_spec (length parts) 2) as [Hlt | Hge].
  - destruct (Z.ltb_spec (Z.of_nat (length parts)) 2); [reflexivity | lia].
  - destruct (Z.ltb_spec (Z.of_nat (length parts)) 2); [lia|].
    destruct (last_two_inv parts Hge) as (front & a & b & Hp).
    assert (Hl : lastTwo parts = [a; b]) by (rewrite Hp; apply lastTwo_app).
    rewrite Hl.
    rewrite (badLabelAt_some parts _ b), (badLabelAt_some parts _ a).
    + destruct (existsb isEmpty parts) eqn:He; [reflexivity|].
      assert (Ha : isEmpty a = false).
      { destruct (isEmpty a) eqn:X; [|reflexivity].
        rewrite <- He. symmetry. apply existsb_exists. exists a.
        split; [rewrite Hp; apply in_or_app; right; now left | exact X]. }
      assert (Hb : isEmpty b = false).
      { destruct (isEmpty b) eqn:X; [|reflexivity].
        rewrite <- He. symmetry. apply existsb_exists. exists b.
        split; [rewrite Hp; apply in_or_app; right; right; now left | exact X]. }
      rewrite Ha, Hb. cbn [existsb negb andb orb].
      destruct (hasUnderscore a || negb (hasAlnum a));
        destruct (hasUnderscore b || negb (hasAlnum b)); reflexivity.
    + rewrite Hp, length_app. simpl length.
      replace (Z.of_nat (length front + 2) - 2) with (Z.of_nat (length front + 0)) by lia.
      now rewrite at_app_length.
    + rewrite Hp, length_app. simpl length.
      replace (Z.of_nat (length front + 2) - 1) with (Z.of_nat (length front + 1)) by lia.
      now rewrite at_app_length.
Qed.

(** C3. For every string [d], [isCorrectDomain d] is false exactly when
    splitting [d] on the dot gives fewer than two labels, or some label is
    empty, or one of the last two labels contains an underscore or no
    alphanumeric character; otherwise it is true. *)
Theorem isCorrectDomain_spec (d : jsstring) :
  (isCorrectDomain d = false <-> specRejectsDomain d = true) /\
  (isCorrectDomain d = true <-> specRejectsDomain d = false).
Proof.
  rewrite isCorrectDomain_negb.
  destruct (specRejectsDomain d); simpl; intuition congruence.
Qed.

(** ** The handlers *)

Lemma endsWith_ext (p q : code -> bool) (s : jsstring) :
  (forall c, p c = q c) -> endsWith p s = endsWith q s.
Proof. intros H. unfold endsWith. destruct (rev s); [reflexivity | apply H]. Qed.

Lemma test_labelEnd_spec (label : jsstring) :
  test re_labelEnd label = endsWith isLabelEnd label.
Proof.
  rewrite test_labelEnd. apply endsWith_ext. intros c.
  unfold classHas, labelEndClass, isLabelEnd. cbn [existsb itemHas].
  destruct (c =? ch "-"), (isDigit c), (c =? ch "_"); reflexivity.
Qed.

(** C1. A mention match that passes the boundary check (with the slash
    forbidden) and whose server does not end in [-], a digit or [_]
    becomes a link to [https://{connectedInstance}/u/{name}@{server}]
    (user handlers) or [.../c/{name}@{server}] (community handlers), with
    the text [prefix + name + "@" + server]; and ["@alice@instance.tld"]
    with connected instance ["lemmy.world"] becomes one link to
    [https://lemmy.world/u/alice@instance.tld] showing the input. *)
Theorem mention_link :
  (forall connectedInstance prefix name server whole m,
      previous m true = true ->
      endsWith isLabelEnd server = false ->
      buildFindUser connectedInstance prefix whole (prefix ++ name) server m
      = ROne (Link None
                (lit "https://" ++ connectedInstance ++ lit "/u/"
                   ++ name ++ lit "@" ++ server)
                [Text (prefix ++ name ++ lit "@" ++ server)])
      /\
      buildFindCommunity connectedInstance prefix whole (prefix ++ name) server m
      = ROne (Link None
                (lit "https://" ++ connectedInstance ++ lit "/c/"
                   ++ name ++ lit "@" ++ server)
                [Text (prefix ++ name ++ lit "@" ++ server)]))
  /\
  transformGfmAutolinkLiterals (lit "lemmy.world")
    (paragraph "@alice@instance.tld")
  = Some (Parent "paragraph"
            [Link None (lit "https://lemmy.world/u/alice@instance.tld")
               [Text (lit "@alice@instance.tld")]]).
Proof.
  split.
  - intros ci prefix name server whole m Hp He.
    unfold buildFindUser, buildFindCommunity.
    rewrite Hp, test_labelEnd_spec, He, sliceFrom_prefix. split; reflexivity.
  - vm_compute. reflexivity.
Qed.

Lemma previous_iff (m : RegExpMatchObject) (email : bool) :
  previous m email = true <->
  (index m = 0
   \/ unicodeWhitespace (charCodeAt (input m) (index m - 1)) = true
   \/ unicodePunctuation (charCodeAt (input m) (index m - 1)) = true)
  /\ (email = true -> charCodeAt (input m) (index m - 1) <> Some c_slash).
Proof.
  unfold previous, codeIs. cbn zeta.
  rewrite andb_true_iff, !orb_true_iff, Z.eqb_eq, !negb_true_iff.
  destruct (charCodeAt (input m) (index m - 1)) as [c|]; destruct email.
  - destruct (Z.eqb_spec c c_slash) as [->|Hne].
    + split; [intros [_ [H|H]]; discriminate | intros [_ H]; now destruct H].
    + split; [intros [H _]; split; [tauto | congruence]
             | intros [H _]; split; [tauto | now right]].
  - split; [intros [H _]; split; [tauto | discriminate]
           | intros [H _]; split; [tauto | now left]].
  - split; [intros [H _]; split; [tauto | discriminate]
           | intros [H _]; split; [tauto | now right]].
  - split; [intros [H _]; split; [tauto | discriminate]
           | intros [H _]; split; [tauto | now left]].
Qed.

Lemma previous_false_handlers (m : RegExpMatchObject) :
  (forall email, previous m email = false) ->
  (forall whole protocol domain path,
      findUrl whole protocol domain path m = RFalse) /\
  (forall ci prefix whole atext label,
      buildFindCommunity ci prefix whole atext label m = RFalse) /\
  (forall ci prefix whole atext label,
      buildFindUser ci prefix whole atext label m = RFalse) /\
  (forall whole atext label, findEmail whole atext label m = RFalse).
Proof.
  intros H. conj; intros;
    unfold findUrl, buildFindCommunity,
      buildFindUser, findEmail;
    rewrite H; reflexivity.
Qed.

(** C7. The boundary predicate is true exactly when the match index is 0
    or the preceding character is Unicode whitespace or punctuation, and,
    with the slash-forbidding flag, that character is not [/].  Given that
    the classifiers accept no letter or digit, a match preceded by a
    letter or digit is turned into a link by none of the six handlers. *)
Theorem boundary_rejects_alnum
  (Hws : forall c, isAlnum c = true -> unicodeWhitespace (Some c) = false)
  (Hpunct : forall c, isAlnum c = true -> unicodePunctuation (Some c) = false) :
  (forall m email,
      previous m email = true <->
      (index m = 0
       \/ unicodeWhitespace (charCodeAt (input m) (index m - 1)) = true
       \/ unicodePunctuation (charCodeAt (input m) (index m - 1)) = true)
      /\ (email = true -> charCodeAt (input m) (index m - 1) <> Some c_slash))
  /\
  (forall m c,
      charCodeAt (input m) (index m - 1) = Some c ->
      isAlnum c = true ->
      (forall email, previous m email = false) /\
      (forall whole protocol domain path,
          findUrl whole protocol domain path m = RFalse) /\
      (forall ci prefix whole atext label,
          buildFindCommunity ci prefix whole atext label m = RFalse) /\
      (forall ci prefix whole atext label,
          buildFindUser ci prefix whole atext label m = RFalse) /\
      (forall whole atext label, findEmail whole atext label m = RFalse)).
Proof.
  split; [exact previous_iff|].
  intros m c Hc Ha.
  assert (Hp : forall email, previous m email = false).
  { intros email. destruct (previous m email) eqn:E; [|reflexivity].
    apply previous_iff in E. destruct E as [[H0 | [H | H]] _].
    - unfold charCodeAt in Hc. rewrite H0 in Hc. discriminate.
    - rewrite Hc, Hws in H by assumption. discriminate.
    - rewrite Hc, Hpunct in H by assumption. discriminate. }
  split; [exact Hp | exact (previous_false_handlers m Hp)].
Qed.

(** C2. ["!community@instance.org"] at the start of a text becomes a
    community link under [/c/] on the connected instance and nothing
    else; the only candidate of the email pattern in that text starts
    after the [!] and [findEmail] rejects it; and [findEmail] rejects
    every match whose preceding character is [!] or [@]. *)
Theorem community_before_email :
  (forall connectedInstance,
      transformGfmAutolinkLiterals connectedInstance
        (paragraph "!community@instance.org")
      = Some (Parent "paragraph"
                [Link None
                   (lit "https://" ++ connectedInstance
                      ++ lit "/c/community@instance.org")
                   [Text (lit "!community@instance.org")]]))
  /\
  (exec re_email (lit "!community@instance.org") 0
   = Some (mkExec 1 (lit "community@instance.org")
             [Some (lit "community"); Some (lit "instance.org")])
   /\ findEmail (lit "community@instance.org") (lit "community")
                (lit "instance.org")
                (mkMatch 1 (lit "!community@instance.org"))
      = RFalse)
  /\
  (forall whole atext label m,
      charCodeAt (input m) (index m - 1) = Some c_bang
      \/ charCodeAt (input m) (index m - 1) = Some c_at ->
      findEmail whole atext label m = RFalse).
Proof.
  assert (G : forall whole atext label m,
             charCodeAt (input m) (index m - 1) = Some c_bang
             \/ charCodeAt (input m) (index m - 1) = Some c_at ->
             findEmail whole atext label m = RFalse).
  { intros whole atext label m H. unfold findEmail. cbn zeta.
    destruct (negb (previous m true) || test re_labelEnd label); [reflexivity|].
    destruct H as [-> | ->]; reflexivity. }
  split; [|split; [split|]].
  - intros ci. vm_compute. reflexivity.
  - vm_compute. reflexivity.
  - apply G. left. reflexivity.
  - exact G.
Qed.

(** The shape of every result of [findUrl]. *)
Lemma findUrl_cases (whole protocol domain path : jsstring)
  (m : RegExpMatchObject) :
  let www := startsWithW protocol in
  let domain' := if www then protocol ++ domain else domain in
  let kept := fst (splitUrl (domain' ++ path)) in
  let trimmed := snd (splitUrl (domain' ++ path)) in
  let link :=
    Link None
         ((if www then lit "http://" else []) ++ (if www then [] else protocol)
            ++ kept)
         [Text ((if www then [] else protocol) ++ kept)] in
  findUrl whole protocol domain path m = RFalse \/
  (previous m false = true /\ isCorrectDomain domain' = true /\ kept <> [] /\
   ((orEmpty trimmed = [] /\
     findUrl whole protocol domain path m = ROne link) \/
    (orEmpty trimmed <> [] /\
     findUrl whole protocol domain path m
     = RMany [link; Text (orEmpty trimmed)]))).
Proof.
  unfold findUrl. rewrite test_w. cbn zeta.
  destruct (previous m false); cbn [negb]; [|now left].
  destruct (startsWithW protocol).
  - destruct (isCorrectDomain (protocol ++ domain)); cbn [negb]; [|now left].
    destruct (splitUrl ((protocol ++ domain) ++ path)) as [[|k kept] tr];
      cbn [fst snd truthy negb]; [now left|].
    right. conj; [reflexivity | reflexivity | discriminate |].
    destruct tr as [[|c t]|]; cbn [orEmpty];
      [left | right | left]; (split; [try reflexivity; discriminate | reflexivity]).
  - destruct (isCorrectDomain domain); cbn [negb]; [|now left].
    destruct (splitUrl (domain ++ path)) as [[|k kept] tr];
      cbn [fst snd truthy negb]; [now left|].
    right. conj; [reflexivity | reflexivity | discriminate |].
    destruct tr as [[|c t]|]; cbn [orEmpty];
      [left | right | left]; (split; [try reflexivity; discriminate | reflexivity]).
Qed.

(** C6. When the first capture starts with [w] or [W] (the www form) it
    is folded into the domain: the domain checked and split is
    [protocol + domain], the URL of the link is ["http://"] followed by
    the kept part and its text is the kept part alone.  Otherwise the
    URL and the text are both the captured protocol followed by the kept
    part. *)
Theorem findUrl_scheme (whole protocol domain path : jsstring)
  (m : RegExpMatchObject) (link : Node) (more : list Node) :
  resultNodes (findUrl whole protocol domain path m) = link :: more ->
  (startsWithW protocol = true ->
   isCorrectDomain (protocol ++ domain) = true /\
   link = Link None
            (lit "http://" ++ fst (splitUrl ((protocol ++ domain) ++ path)))
            [Text (fst (splitUrl ((protocol ++ domain) ++ path)))]) /\
  (startsWithW protocol = false ->
   isCorrectDomain domain = true /\
   link = Link None (protocol ++ fst (splitUrl (domain ++ path)))
            [Text (protocol ++ fst (splitUrl (domain ++ path)))]).
Proof.
  intros H.
  pose proof (findUrl_cases whole protocol domain path m) as C. cbn zeta in C.
  destruct C as [E | (_ & Hd & _ & [[_ E] | [_ E]])];
    rewrite E in H; cbn [resultNodes] in H; try discriminate;
    injection H as <- _;
    (split; intros W; rewrite W in *; (split; [exact Hd | reflexivity])).
Qed.

(** C10. When parenthesis balancing takes the whole trailing run back,
    [splitUrl] returns the empty string as the trail, not [undefined];
    [findUrl] then returns the link alone, as for an absent trail, and no
    result of [findUrl] holds an empty text node. *)
Theorem findUrl_no_empty_text :
  splitUrl (lit "example.org/a_(b)") = (lit "example.org/a_(b)", Some [])
  /\
  (forall whole protocol domain path m,
      (forall v, In (Text v) (resultNodes (findUrl whole protocol domain path m))
                 -> v <> []) /\
      (orEmpty (snd (splitUrl
                       ((if startsWithW protocol then protocol ++ domain
                         else domain) ++ path))) = [] ->
       findUrl whole protocol domain path m = RFalse \/
       exists link, findUrl whole protocol domain path m = ROne link))
  /\
  (forall connectedInstance,
      transformGfmAutolinkLiterals connectedInstance
        (paragraph "http://example.org/a_(b)")
      = Some (Parent "paragraph"
                [Link None (lit "http://example.org/a_(b)")
                   [Text (lit "http://example.org/a_(b)")]])).
Proof.
  split; [vm_compute; reflexivity|]. split; [|intros ci; vm_compute; reflexivity].
  intros whole protocol domain path m.
  pose proof (findUrl_cases whole protocol domain path m) as C. cbn zeta in C.
  destruct C as [E | (_ & _ & _ & [[Ht E] | [Ht E]])]; rewrite E; cbn [resultNodes].
  - split; [intros v [] | now left].
  - split; [|intros _; right; eexists; reflexivity].
    intros v [H | []]. discriminate.
  - split; [|intros H; contradiction].
    intros v [H | [H | []]]; [discriminate|]. injection H as <-. exact Ht.
Qed.

(** * Further properties *)

(** ** The matcher and its relational reading *)

Lemma greedy_sound (ic : bool) (a : Regex) (k : Cont) :
  (forall k' x z, rmatch ic a k' x = Some z ->
                  exists y, Matches ic a x y /\ k' y = Some z) ->
  forall n x z,
    greedy (rmatch ic a) k n x = Some z ->
    exists y, Matches ic (RStar a) x y /\ k y = Some z.
Proof.
  intros IHa. induction n as [|n IHn]; intros x z H; cbn [greedy] in H.
  - exists x. split; [constructor | exact H].
  - destruct (rmatch ic a _ x) as [z0|] eqn:E.
    + injection H as ->. apply IHa in E. destruct E as (y & Hy & Hk).
      destruct (Nat.eqb (pos y) (pos x)); [discriminate|].
      apply IHn in Hk. destruct Hk as (y' & Hy' & Hk').
      exists y'. split; [econstructor; eassumption | exact Hk'].
    + exists x. split; [constructor | exact H].
Qed.

(** Whatever [rmatch] returns is reached through a state the relation
    allows. *)
Lemma rmatch_sound (ic : bool) (r : Regex) :
  forall k x z, rmatch ic r k x = Some z ->
                exists y, Matches ic r x y /\ k y = Some z.
Proof.
  induction r as [| c | neg items | a IHa b IHb | a IHa b IHb | a IHa | a IHa
                 | a IHa | n a IHa | a IHa | |];
    intros k x z H; cbn [rmatch] in H.
  - exists x. split; [constructor | exact H].
  - destruct (rest x) as [|c0 t] eqn:Er; [discriminate|].
    destruct (classMatches ic [CChar c] c0) eqn:Ec; [|discriminate].
    exists (advance x t). split; [econstructor; eassumption | exact H].
  - destruct (rest x) as [|c0 t] eqn:Er; [discriminate|].
    destruct (xorb neg (classMatches ic items c0)) eqn:Ec; [|discriminate].
    exists (advance x t). split; [econstructor; eassumption | exact H].
  - apply IHa in H. destruct H as (y & Hy & H).
    apply IHb in H. destruct H as (y' & Hy' & H).
    exists y'. split; [econstructor; eassumption | exact H].
  - destruct (rmatch ic a k x) as [z0|] eqn:E.
    + injection H as ->. apply IHa in E. destruct E as (y & Hy & Hk).
      exists y. split; [now apply M_AltL | exact Hk].
    + apply IHb in H. destruct H as (y & Hy & Hk).
      exists y. split; [now apply M_AltR | exact Hk].
  - eapply greedy_sound; eassumption.
  - apply IHa in H. destruct H as (y & Hy & H).
    apply (greedy_sound ic a k IHa) in H. destruct H as (y' & Hy' & H).
    exists y'. split; [econstructor; eassumption | exact H].
  - destruct (rmatch ic a k x) as [z0|] eqn:E.
    + injection H as ->. apply IHa in E. destruct E as (y & Hy & Hk).
      exists y. split; [now apply M_OptS | exact Hk].
    + exists x. split; [constructor | exact H].
  - apply IHa in H. destruct H as (y & Hy & H).
    exists (capture n x y). split; [now constructor | exact H].
  - destruct (rmatch ic a Some x) as [z0|] eqn:E; [|discriminate].
    apply IHa in E. destruct E as (y & Hy & _).
    exists x. split; [econstructor; eassumption | exact H].
  - destruct (Nat.eqb (pos x) 0) eqn:E; [|discriminate].
    apply Nat.eqb_eq in E. exists x. split; [now constructor | exact H].
  - destruct (rest x) eqn:E; [|discriminate].
    exists x. split; [now constructor | exact H].
Qed.

(** A step of the relation consumes a prefix of the remaining input and
    moves the position by its length. *)
Lemma Matches_consumes (ic : bool) (r : Regex) (x y : MState) :
  Matches ic r x y ->
  exists w, rest x = w ++ rest y /\ pos y = (pos x + length w)%nat.
Proof.
  induction 1 as [x | c x c0 t Hr _ | neg items x c0 t Hr _
                 | a b x y z _ IH1 _ IH2 | a b x y _ IH | a b x y _ IH
                 | a x | a x y z _ IH1 _ IH2 | a x y z _ IH1 _ IH2
                 | a x | a x y _ IH | n a x y _ IH | a x y _ _ | x _ | x _];
    try (exists []; split; [reflexivity | simpl; lia]).
  - exists [c0]. cbn [advance rest pos]. split; [exact Hr | simpl; lia].
  - exists [c0]. cbn [advance rest pos]. split; [exact Hr | simpl; lia].
  - destruct IH1 as (w1 & H1 & P1), IH2 as (w2 & H2 & P2).
    exists (w1 ++ w2). rewrite <- app_assoc, <- H2, length_app. split; [exact H1 | lia].
  - exact IH.
  - exact IH.
  - destruct IH1 as (w1 & H1 & P1), IH2 as (w2 & H2 & P2).
    exists (w1 ++ w2). rewrite <- app_assoc, <- H2, length_app. split; [exact H1 | lia].
  - destruct IH1 as (w1 & H1 & P1), IH2 as (w2 & H2 & P2).
    exists (w1 ++ w2). rewrite <- app_assoc, <- H2, length_app. split; [exact H1 | lia].
  - exact IH.
  - exact IH.
Qed.

(** What was consumed between two states. *)
Lemma Matches_word (ic : bool) (r : Regex) (x y : MState) :
  Matches ic r x y ->
  rest x = firstn (pos y - pos x) (rest x) ++ rest y /\
  (pos x <= pos y)%nat /\
  length (firstn (pos y - pos x) (rest x)) = (pos y - pos x)%nat.
Proof.
  intros H. destruct (Matches_consumes _ _ _ _ H) as (w & Hw & Hp).
  rewrite Hp, Hw. replace (pos x + length w - pos x)%nat with (length w) by lia.
  rewrite firstn_app, Nat.sub_diag, firstn_all, firstn_O, app_nil_r.
  repeat split; lia.
Qed.

(** A pattern without groups leaves the captures alone. *)
Lemma Matches_groupFree (ic : bool) (r : Regex) (x y : MState) :
  Matches ic r x y -> groupFree r = true -> caps y = caps x.
Proof.
  induction 1; cbn [groupFree]; intros G;
    try apply andb_prop in G as [G1 G2];
    try reflexivity; try discriminate; auto.
  - rewrite IHMatches2, IHMatches1; auto.
  - rewrite IHMatches2, IHMatches1; auto.
  - rewrite IHMatches2, IHMatches1; auto.
Qed.

(** ** What a match of [exec] is *)

Lemma scan_sound (re : RegExp) (s : jsstring) (p : nat) (m : ExecResult) :
  scan re p s = Some m ->
  exists k y,
    (k <= length s)%nat /\
    exec_index m = (p + k)%nat /\
    Matches (ignoreCase re) (pattern re)
            (mkMState (p + k) (skipn k s) (repeat None (groupCount re))) y /\
    exec_whole m = firstn (pos y - (p + k)) (skipn k s) /\
    exec_groups m = caps y.
Proof.
  revert p. induction s as [|c s IH]; intros p H; cbn [scan] in H.
  - destruct (rmatch _ _ _ _) as [y|] eqn:E; [|discriminate].
    injection H as <-. apply rmatch_sound in E. destruct E as (y' & Hy & E).
    injection E as ->. exists 0%nat, y. rewrite Nat.add_0_r.
    conj; [simpl; lia | reflexivity | exact Hy | reflexivity | reflexivity].
  - destruct (rmatch _ _ _ _) as [y|] eqn:E.
    + injection H as <-. apply rmatch_sound in E. destruct E as (y' & Hy & E).
      injection E as ->. exists 0%nat, y. rewrite Nat.add_0_r.
      conj; [simpl; lia | reflexivity | exact Hy | reflexivity | reflexivity].
    + apply IH in H. destruct H as (k & y & Hk & Hi & Hm & Hw & Hg).
      exists (S k), y. rewrite <- Nat.add_succ_comm. cbn [skipn].
      conj; [simpl; lia | exact Hi | exact Hm | exact Hw | exact Hg].
Qed.

(** A match of [exec]: it starts at or after [lastIndex] (for a global
    pattern), lies inside the input, and its text and groups are those of
    a run of the pattern from its index. *)
Lemma exec_sound (re : RegExp) (v : jsstring) (lastIndex : nat) (m : ExecResult) :
  exec re v lastIndex = Some m ->
  exists y,
    ((if global re then lastIndex else 0) <= exec_index m)%nat /\
    (exec_index m <= length v)%nat /\
    Matches (ignoreCase re) (pattern re)
            (mkMState (exec_index m) (skipn (exec_index m) v)
                      (repeat None (groupCount re))) y /\
    exec_whole m = firstn (pos y - exec_index m) (skipn (exec_index m) v) /\
    exec_groups m = caps y.
Proof.
  unfold exec. set (from := if global re then lastIndex else 0%nat).
  destruct (Nat.ltb_spec (length v) from) as [Hlt | Hle]; [discriminate|].
  intros H. apply scan_sound in H.
  destruct H as (k & y & Hk & Hi & Hm & Hw & Hg).
  rewrite length_skipn in Hk. rewrite skipn_skipn in Hm, Hw.
  rewrite (Nat.add_comm k from), <- Hi in Hm, Hw.
  exists y. conj; [lia | lia | exact Hm | exact Hw | exact Hg].
Qed.

(** The matched text is the input between the index and the end of the
    match. *)
Lemma exec_whole_at (re : RegExp) (v : jsstring) (lastIndex : nat)
  (m : ExecResult) :
  exec re v lastIndex = Some m ->
  firstn (exec_index m + length (exec_whole m)) v
  = firstn (exec_index m) v ++ exec_whole m.
Proof.
  intros H. apply exec_sound in H.
  destruct H as (y & _ & Hle & Hm & Hw & _).
  apply Matches_word in Hm. cbn [rest pos] in Hm. destruct Hm as (Hr & _ & Hl).
  rewrite <- Hw in Hr, Hl.
  rewrite <- (firstn_skipn (exec_index m) v) at 1.
  rewrite firstn_app, length_firstn, Nat.min_l by lia.
  replace (exec_index m + length (exec_whole m) - exec_index m)%nat
    with (length (exec_whole m)) by lia.
  rewrite (firstn_all2 (n := exec_index m + length (exec_whole m)))
    by (rewrite length_firstn; lia).
  f_equal. rewrite Hr at 1. rewrite firstn_app, Nat.sub_diag, firstn_all, firstn_O.
  apply app_nil_r.
Qed.

(** ** The shape of the matches of the six patterns *)

Lemma Matches_seq_inv (ic : bool) (a b : Regex) (x z : MState) :
  Matches ic (RSeq a b) x z -> exists y, Matches ic a x y /\ Matches ic b y z.
Proof. intros H. inversion H; subst. eauto. Qed.

Lemma Matches_plus_inv (ic : bool) (a : Regex) (x z : MState) :
  Matches ic (RPlus a) x z ->
  exists y, Matches ic a x y /\ Matches ic (RStar a) y z.
Proof. intros H. inversion H; subst. eauto. Qed.

Lemma Matches_class_inv (ic neg : bool) (items : list ClassItem) (x y : MState) :
  Matches ic (RClass neg items) x y ->
  exists c t, rest x = c :: t /\ xorb neg (classMatches ic items c) = true /\
              y = advance x t.
Proof. intros H. inversion H; subst. eauto. Qed.

Lemma Matches_char_inv (ic : bool) (c : code) (x y : MState) :
  Matches ic (RChar c) x y ->
  exists c0 t, rest x = c0 :: t /\ classMatches ic [CChar c] c0 = true /\
               y = advance x t.
Proof. intros H. inversion H; subst. eauto. Qed.

Lemma Matches_group_inv (ic : bool) (n : nat) (a : Regex) (x z : MState) :
  Matches ic (RGroup n a) x z ->
  exists y, Matches ic a x y /\ z = capture n x y.
Proof. intros H. inversion H; subst. eauto. Qed.

Lemma Matches_empty_inv (ic : bool) (x y : MState) :
  Matches ic REmpty x y -> y = x.
Proof. intros H. inversion H; subst. reflexivity. Qed.

Lemma Matches_star_class (ic : bool) (items : list ClassItem) (x y : MState) :
  Matches ic (RStar (RClass false items)) x y ->
  exists w,
    rest x = w ++ rest y /\ pos y = (pos x + length w)%nat /\
    caps y = caps x /\ forallb (classMatches ic items) w = true.
Proof.
  intros H. remember (RStar (RClass false items)) as r eqn:Er.
  induction H as [| | | | | | a x | a x y z Ha _ _ IH | | | | | | |];
    try discriminate.
  - exists []. conj; [reflexivity | simpl; lia | reflexivity | reflexivity].
  - injection Er as ->. apply Matches_class_inv in Ha.
    destruct Ha as (c & t & Hx & Hc & ->).
    destruct (IH eq_refl) as (w & Hr & Hp & Hcaps & Hf).
    cbn [advance rest pos caps] in *. exists (c :: w).
    conj; [rewrite Hx, Hr; reflexivity | simpl; lia | exact Hcaps |].
    cbn [forallb]. rewrite Hf. cbn [xorb] in Hc. now rewrite Hc.
Qed.

Lemma Matches_plus_class (ic : bool) (items : list ClassItem) (x y : MState) :
  Matches ic (RPlus (RClass false items)) x y ->
  exists c w,
    rest x = (c :: w) ++ rest y /\ pos y = (pos x + S (length w))%nat /\
    caps y = caps x /\ forallb (classMatches ic items) (c :: w) = true.
Proof.
  intros H. apply Matches_plus_inv in H. destruct H as (y0 & Ha & Hs).
  apply Matches_class_inv in Ha. destruct Ha as (c & t & Hx & Hc & ->).
  apply Matches_star_class in Hs.
  destruct Hs as (w & Hr & Hp & Hcaps & Hf). cbn [advance rest pos caps] in *.
  exists c, w. conj; [rewrite Hx, Hr; reflexivity | lia | exact Hcaps |].
  cbn [forallb]. rewrite Hf. cbn [xorb] in Hc. now rewrite Hc.
Qed.

Lemma Matches_char (c : code) (x y : MState) :
  Matches false (RChar c) x y ->
  rest x = c :: rest y /\ pos y = S (pos x) /\ caps y = caps x.
Proof.
  intros H. apply Matches_char_inv in H. destruct H as (c0 & t & Hx & Hc & ->).
  cbn [advance rest pos caps].
  rewrite classMatches_plain in Hc. cbn [classHas existsb itemHas] in Hc.
  rewrite orb_false_r in Hc. apply Z.eqb_eq in Hc. subst.
  conj; [exact Hx | reflexivity | reflexivity].
Qed.

Lemma Matches_chars (l : jsstring) (x y : MState) :
  Matches false (fold_right (fun c r => RSeq (RChar c) r) REmpty l) x y ->
  rest x = l ++ rest y /\ pos y = (pos x + length l)%nat /\ caps y = caps x.
Proof.
  revert x. induction l as [|c l IH]; intros x H; cbn [fold_right] in H.
  - apply Matches_empty_inv in H. subst.
    conj; [reflexivity | simpl; lia | reflexivity].
  - apply Matches_seq_inv in H. destruct H as (y0 & Hc & Hl).
    apply Matches_char in Hc. destruct Hc as (Hr & Hp & Hc).
    apply IH in Hl. destruct Hl as (Hr' & Hp' & Hc').
    conj; [rewrite Hr, Hr'; reflexivity | simpl; lia | congruence].
Qed.

(** A capture group around a group-free pattern records the text it
    consumed and nothing else. *)
Lemma Matches_group (ic : bool) (n : nat) (a : Regex) (x z : MState) :
  Matches ic (RGroup n a) x z -> groupFree a = true ->
  exists y w,
    Matches ic a x y /\
    rest x = w ++ rest z /\ pos z = (pos x + length w)%nat /\
    rest y = rest z /\ pos y = pos z /\
    caps z = setNth n (Some w) (caps x).
Proof.
  intros H G. apply Matches_group_inv in H. destruct H as (y & Ha & ->).
  exists y.
  destruct (Matches_consumes _ _ _ _ Ha) as (w & Hr & Hp).
  exists w. cbn [capture rest pos caps].
  conj; [exact Ha | exact Hr | exact Hp | reflexivity | reflexivity |].
  rewrite (Matches_groupFree _ _ _ _ Ha G), Hp, Hr.
  replace (pos x + length w - pos x)%nat with (length w) by lia.
  now rewrite firstn_app, Nat.sub_diag, firstn_all, firstn_O, app_nil_r.
Qed.

(** The label pattern [[-\w]+(?:\.[-\w]+)+]: it starts with a label
    character and holds a dot. *)
Lemma Matches_label (x y : MState) :
  Matches false
    (RSeq (RPlus (RClass false labelClass))
          (RPlus (RSeq (RChar (ch "."))
                       (RPlus (RClass false labelClass))))) x y ->
  exists c w,
    rest x = (c :: w) ++ rest y /\ pos y = (pos x + S (length w))%nat /\
    caps y = caps x /\ classHas labelClass c = true /\ In c_dot w.
Proof.
  intros H. apply Matches_seq_inv in H. destruct H as (y1 & H1 & H2).
  apply Matches_plus_class in H1.
  destruct H1 as (c & w1 & Hr1 & Hp1 & Hc1 & Hf1).
  apply Matches_plus_inv in H2. destruct H2 as (y3 & H2 & H4).
  apply Matches_seq_inv in H2. destruct H2 as (y2 & H2 & H3).
  apply Matches_char in H2. destruct H2 as (Hr2 & Hp2 & Hc2).
  destruct (Matches_consumes _ _ _ _ H3) as (w3 & Hr3 & Hp3).
  destruct (Matches_consumes _ _ _ _ H4) as (w4 & Hr4 & Hp4).
  assert (Hc3 : caps y3 = caps y2)
    by (apply (Matches_groupFree _ _ _ _ H3); reflexivity).
  assert (Hc4 : caps y = caps y3)
    by (apply (Matches_groupFree _ _ _ _ H4); reflexivity).
  exists c, (w1 ++ ch "." :: w3 ++ w4).
  cbn [forallb] in Hf1. apply andb_prop in Hf1 as [Hf1 _].
  rewrite classMatches_plain in Hf1.
  conj.
  - rewrite Hr1, Hr2, Hr3, Hr4. cbn [app]. rewrite <- !app_assoc. cbn [app].
    now rewrite <- app_assoc.
  - rewrite Hp4, Hp3, Hp2, Hp1, !length_app. cbn [length]. rewrite length_app. lia.
  - congruence.
  - exact Hf1.
  - apply in_or_app. right. now left.
Qed.

Lemma firstn_exact {A} (w r : list A) (p q : nat) :
  q = (p + length w)%nat -> firstn (q - p) (w ++ r) = w.
Proof.
  intros ->. replace (p + length w - p)%nat with (length w) by lia.
  now rewrite firstn_app, Nat.sub_diag, firstn_all, firstn_O, app_nil_r.
Qed.

Lemma forallb_plain (items : list ClassItem) (w : jsstring) :
  forallb (classMatches false items) w = forallb (classHas items) w.
Proof.
  induction w as [|c w IH]; [reflexivity|].
  cbn [forallb]. now rewrite IH, classMatches_plain.
Qed.

Lemma groupFree_rlit (s : string) : groupFree (rlit s) = true.
Proof.
  unfold rlit. induction (lit s) as [|c l IH]; [reflexivity | exact IH].
Qed.

(** Every match of a mention or email pattern has both groups: the
    prefix followed by a non-empty name, and a label that starts with a
    label character and holds a dot; the match is the two joined by
    [@]. *)
Lemma exec_mention (prefix : string) (v : jsstring) (lastIndex : nat)
  (m : ExecResult) :
  exec (re_mention prefix) v lastIndex = Some m ->
  exists name c lab,
    exec_groups m = [Some (lit prefix ++ name); Some (c :: lab)] /\
    exec_whole m = (lit prefix ++ name) ++ lit "@" ++ c :: lab /\
    name <> [] /\ forallb (classHas atextClass) name = true /\
    classHas labelClass c = true /\ In c_dot lab.
Proof.
  intros H. apply exec_sound in H.
  destruct H as (y & _ & _ & Hm & Hw & Hg).
  cbn [re_mention pattern ignoreCase groupCount repeat] in Hm.
  set (x0 := mkMState (exec_index m) (skipn (exec_index m) v) [None; None]) in *.
  apply Matches_seq_inv in Hm. destruct Hm as (y1 & Hg0 & Hat).
  apply Matches_group in Hg0;
    [|cbn [groupFree]; rewrite groupFree_rlit; reflexivity].
  destruct Hg0 as (y0 & w & Hin & Hr0 & Hp0 & Hry & Hpy & Hc0).
  apply Matches_seq_inv in Hin. destruct Hin as (ya & Hpre & Hname).
  unfold rlit in Hpre. apply Matches_chars in Hpre. destruct Hpre as (Hra & _ & _).
  apply Matches_plus_class in Hname.
  destruct Hname as (n0 & name & Hrn & _ & _ & Hfn).
  assert (Ew : w = lit prefix ++ n0 :: name).
  { apply (app_inv_tail (rest y1)). rewrite <- Hr0, Hra, Hrn, Hry.
    now rewrite <- app_assoc. }
  unfold atLabel in Hat. apply Matches_seq_inv in Hat.
  destruct Hat as (y2 & Hch & Hg1).
  apply Matches_char in Hch. destruct Hch as (Hr1 & Hp1 & Hc1).
  apply Matches_group in Hg1; [|reflexivity].
  destruct Hg1 as (y3 & w2 & Hlab & Hr2 & Hp2 & Hry3 & _ & Hc2).
  apply Matches_label in Hlab. destruct Hlab as (c & lab & Hrl & _ & _ & Hcl & Hdot).
  assert (Ew2 : w2 = c :: lab).
  { apply (app_inv_tail (rest y)). now rewrite <- Hr2, Hrl, Hry3. }
  exists (n0 :: name), c, lab.
  conj; [| | discriminate | | exact Hcl | exact Hdot].
  - rewrite Hg, Hc2, Hc1, Hc0, <- Ew, <- Ew2. reflexivity.
  - rewrite Hw. change (skipn (exec_index m) v) with (rest x0).
    change (exec_index m) with (pos x0).
    rewrite Hr0, Hr1, Hr2, <- Ew, <- Ew2.
    change (w ++ ch "@" :: w2 ++ rest y) with (w ++ (ch "@" :: w2) ++ rest y).
    rewrite app_assoc. apply firstn_exact.
    rewrite Hp2, Hp1, Hp0, length_app. simpl. lia.
  - now rewrite <- forallb_plain.
Qed.

(** Every match of the URL pattern has its three groups, the middle one
    non-empty, and is their concatenation. *)
Lemma exec_url (v : jsstring) (lastIndex : nat) (m : ExecResult) :
  exec re_url v lastIndex = Some m ->
  exists protocol domain path,
    exec_groups m = [Some protocol; Some domain; Some path] /\
    exec_whole m = protocol ++ domain ++ path /\
    domain <> [].
Proof.
  intros H. apply exec_sound in H.
  destruct H as (y & _ & _ & Hm & Hw & Hg).
  cbn [re_url pattern ignoreCase groupCount repeat] in Hm.
  set (x0 := mkMState (exec_index m) (skipn (exec_index m) v)
                      [None; None; None]) in *.
  apply Matches_seq_inv in Hm. destruct Hm as (y1 & Hg0 & Hm).
  apply Matches_seq_inv in Hm. destruct Hm as (y2 & Hg1 & Hg2).
  apply Matches_group in Hg0; [|reflexivity].
  destruct Hg0 as (_ & w0 & _ & Hr0 & Hp0 & _ & _ & Hc0).
  apply Matches_group in Hg1; [|reflexivity].
  destruct Hg1 as (yb & w1 & Hd & Hr1 & Hp1 & Hrb & _ & Hc1).
  apply Matches_group in Hg2; [|reflexivity].
  destruct Hg2 as (_ & w2 & _ & Hr2 & Hp2 & _ & _ & Hc2).
  apply Matches_plus_class in Hd. destruct Hd as (c & d & Hrd & _ & _ & _).
  assert (Ew1 : w1 = c :: d).
  { apply (app_inv_tail (rest y2)). now rewrite <- Hr1, Hrd, Hrb. }
  exists w0, w1, w2. conj.
  - rewrite Hg, Hc2, Hc1, Hc0. reflexivity.
  - rewrite Hw. change (skipn (exec_index m) v) with (rest x0).
    change (exec_index m) with (pos x0).
    rewrite Hr0, Hr1, Hr2, !app_assoc. apply firstn_exact.
    rewrite Hp2, Hp1, Hp0, !length_app. lia.
  - rewrite Ew1. discriminate.
Qed.

(** ** The text of a tree under the replacement walk *)

Lemma Node_induction (P : Node -> Prop) :
  (forall v, P (Text v)) ->
  (forall title u cs, Forall P cs -> P (Link title u cs)) ->
  (forall ty cs, Forall P cs -> P (Parent ty cs)) ->
  forall n, P n.
Proof.
  intros HT HL HP. fix IH 1. intros [v | title u cs | ty cs].
  - apply HT.
  - apply HL. induction cs as [|c cs IHcs]; constructor; [apply IH | exact IHcs].
  - apply HP. induction cs as [|c cs IHcs]; constructor; [apply IH | exact IHcs].
Qed.

Lemma textOf_children (cs : list Node) :
  (fix all (l : list Node) : jsstring :=
     match l with
     | [] => []
     | c :: t => textOf c ++ all t
     end) cs = textOfList cs.
Proof. induction cs as [|c cs IH]; [reflexivity | simpl; now rewrite IH]. Qed.

Lemma textOf_Link (title : option jsstring) (u : jsstring) (cs : list Node) :
  textOf (Link title u cs) = textOfList cs.
Proof. apply textOf_children. Qed.

Lemma textOf_Parent (ty : string) (cs : list Node) :
  textOf (Parent ty cs) = textOfList cs.
Proof. apply textOf_children. Qed.

Lemma textOfList_app (a b : list Node) :
  textOfList (a ++ b) = textOfList a ++ textOfList b.
Proof. apply flat_map_app. Qed.

Lemma slice_between (s : jsstring) (a b : nat) :
  (a <= b)%nat -> (b <= length s)%nat ->
  slice s (Z.of_nat a) (Z.of_nat b) = firstn (b - a) (skipn a s).
Proof.
  intros Hab Hb. unfold slice, strlen. rewrite !relIndex_nonneg by lia.
  rewrite !Z.min_l by lia. rewrite Nat2Z.id. f_equal. lia.
Qed.

Lemma firstn_plus {A} (l : list A) (a b : nat) :
  (a <= b)%nat -> firstn b l = firstn a l ++ firstn (b - a) (skipn a l).
Proof.
  intros H. rewrite <- (firstn_skipn a l) at 1.
  rewrite firstn_app.
  destruct (Nat.le_ge_cases a (length l)) as [Hl | Hl].
  - rewrite length_firstn, Nat.min_l by lia.
    rewrite (firstn_all2 (n := b)) by (rewrite length_firstn; lia). reflexivity.
  - rewrite (skipn_all2 (n := a)) by lia. rewrite !firstn_nil, !app_nil_r.
    rewrite !firstn_all2; try reflexivity; try lia.
    rewrite length_firstn. lia.
Qed.

Lemma finishText_text (v : jsstring) (start : nat) (nodes : list Node)
  (change : bool) :
  textOfList nodes = firstn start v ->
  textOfList (finishText v start nodes change) = v.
Proof.
  intros H. unfold finishText. destruct change; [|apply app_nil_r].
  destruct (Nat.ltb_spec start (length v)) as [Hlt | Hge].
  - rewrite textOfList_app, H, sliceFrom_skipn. simpl. rewrite app_nil_r.
    apply firstn_skipn.
  - rewrite H. apply firstn_all2. exact Hge.
Qed.

(** The per-text loop finishes within as many rounds as characters are
    left plus one, and the nodes it returns spell the text. *)
Lemma replaceInText_text (find : RegExp) (replace : ReplaceFunction)
  (v : jsstring) :
  keepsText find replace ->
  forall fuel lastIndex start nodes change,
    (S (length v) - lastIndex <= fuel)%nat ->
    (start <= lastIndex)%nat ->
    textOfList nodes = firstn start v ->
    exists ns,
      replaceInText fuel find replace v lastIndex start nodes change = Some ns /\
      textOfList ns = v.
Proof.
  intros [Hglobal Hkeep].
  induction fuel as [|fuel IH]; intros lastIndex start nodes change Hf Hs Ht.
  - cbn [replaceInText]. destruct (exec find v lastIndex) as [m|] eqn:E.
    + apply exec_sound in E. destruct E as (_ & Hli & Hlen & _).
      rewrite Hglobal in Hli. lia.
    + eexists. split; [reflexivity | now apply finishText_text].
  - cbn [replaceInText]. destruct (exec find v lastIndex) as [m|] eqn:E;
      [|eexists; split; [reflexivity | now apply finishText_text]].
    destruct (Hkeep _ _ _ E) as [Hne Hr].
    pose proof (exec_whole_at _ _ _ _ E) as Hat.
    apply exec_sound in E. destruct E as (_ & Hli & Hlen & _).
    rewrite Hglobal in *.
    assert (Hacc : forall r,
               textOfList (resultNodes r) = exec_whole m ->
               textOfList
                 ((if Nat.eqb start (exec_index m) then nodes
                   else nodes ++ [Text (slice v (Z.of_nat start)
                                              (Z.of_nat (exec_index m)))])
                    ++ resultNodes r)
               = firstn (exec_index m + length (exec_whole m)) v).
    { intros r Hr'. rewrite textOfList_app, Hr', Hat. f_equal.
      destruct (Nat.eqb_spec start (exec_index m)) as [->|Hne'];
        [exact Ht|].
      rewrite textOfList_app, Ht, slice_between by lia. simpl.
      rewrite app_nil_r. symmetry. apply firstn_plus. lia. }
    assert (Hpos : (0 < length (exec_whole m))%nat)
      by (destruct (exec_whole m); [contradiction | simpl; lia]).
    destruct (replace (exec_whole m) (exec_groups m) _) as [|n|ns] eqn:Er.
    + apply IH; [lia | lia | exact Ht].
    + destruct Hr as [Hr | Hr]; [discriminate|].
      apply IH; [lia | lia | apply (Hacc (ROne n) Hr)].
    + destruct Hr as [Hr | Hr]; [discriminate|].
      apply IH; [lia | lia | apply (Hacc (RMany ns) Hr)].
Qed.

Lemma visit_text (ignore : list string) (find : RegExp)
  (replace : ReplaceFunction) :
  keepsText find replace ->
  forall n, exists n',
    visit ignore find replace n = Some n' /\ textOf n' = textOf n.
Proof.
  intros K.
  assert (Hchildren :
    forall cs,
      Forall (fun n => exists n', visit ignore find replace n = Some n' /\
                                  textOf n' = textOf n) cs ->
      exists cs',
        (fix children (l : list Node) : option (list Node) :=
           match l with
           | [] => Some []
           | c :: t =>
               match
                 match c with
                 | Text v =>
                     replaceInText (S (length v)) find replace v 0 0 [] false
                 | _ => option_map (fun c' => [c'])
                                   (visit ignore find replace c)
                 end, children t
               with
               | Some a, Some b => Some (a ++ b)
               | _, _ => None
               end
           end) cs = Some cs' /\
        textOfList cs' = textOfList cs).
  { induction 1 as [|c cs Hc _ IH]; [exists []; split; reflexivity|].
    destruct IH as (cs' & -> & Ht).
    assert (Hone : exists a,
               match c with
               | Text v =>
                   replaceInText (S (length v)) find replace v 0 0 [] false
               | _ => option_map (fun c' => [c'])
                                 (visit ignore find replace c)
               end = Some a /\ textOfList a = textOf c).
    { destruct c as [v | title u l | ty l].
      - apply (replaceInText_text find replace v K); [lia | lia | reflexivity].
      - destruct Hc as (c' & -> & Hc). exists [c']. split; [reflexivity|].
        simpl. now rewrite app_nil_r.
      - destruct Hc as (c' & -> & Hc). exists [c']. split; [reflexivity|].
        simpl. now rewrite app_nil_r. }
    destruct Hone as (a & -> & Ha). exists (a ++ cs').
    split; [reflexivity|]. rewrite textOfList_app, Ha, Ht. reflexivity. }
  induction n as [v | title u cs IH | ty cs IH] using Node_induction;
    cbn [visit]; destruct (ignored ignore _);
    try (eexists; split; reflexivity).
  - destruct (Hchildren cs IH) as (cs' & -> & Ht). eexists.
    split; [reflexivity|]. now rewrite !textOf_Link.
  - destruct (Hchildren cs IH) as (cs' & -> & Ht). eexists.
    split; [reflexivity|]. now rewrite !textOf_Parent.
Qed.

Lemma findAndReplace_text (ignore : list string)
  (pairs : list (RegExp * ReplaceFunction)) :
  Forall (fun p => keepsText (fst p) (snd p)) pairs ->
  forall tree, exists tree',
    findAndReplace tree pairs ignore = Some tree' /\
    textOf tree' = textOf tree.
Proof.
  induction 1 as [|[find replace] pairs K _ IH]; intros tree; cbn [findAndReplace].
  - exists tree. split; reflexivity.
  - destruct (visit_text ignore find replace K tree) as (t1 & -> & H1).
    destruct (IH t1) as (t2 & H2 & H3). exists t2. split; [exact H2 | congruence].
Qed.

(** ** The handlers keep the matched text *)

Lemma splitUrl_app (s : jsstring) :
  fst (splitUrl s) ++ orEmpty (snd (splitUrl s)) = s.
Proof.
  destruct (splitUrl_cases s) as [(_ & E & _) | (r & n & _ & Hr)].
  - rewrite E. apply app_nil_r.
  - cbn zeta in Hr. destruct Hr as (_ & _ & _ & E & (Hs & _) & _).
    rewrite E. exact Hs.
Qed.

Lemma findUrl_text (whole protocol domain path : jsstring)
  (m : RegExpMatchObject) :
  findUrl whole protocol domain path m = RFalse \/
  textOfList (resultNodes (findUrl whole protocol domain path m))
  = protocol ++ domain ++ path.
Proof.
  pose proof (findUrl_cases whole protocol domain path m) as C. cbn zeta in C.
  destruct C as [E | (_ & _ & _ & C)]; [now left | right].
  pose proof (splitUrl_app ((if startsWithW protocol then protocol ++ domain
                             else domain) ++ path)) as Hrec.
  destruct (splitUrl ((if startsWithW protocol then protocol ++ domain
                       else domain) ++ path)) as [kept trimmed].
  cbn [fst snd] in C, Hrec.
  assert (Hall : (if startsWithW protocol then [] else protocol)
                   ++ kept ++ orEmpty trimmed
                 = protocol ++ domain ++ path).
  { rewrite Hrec. destruct (startsWithW protocol); [|reflexivity].
    cbn [app]. now rewrite app_assoc. }
  destruct C as [[Ht ->] | [Ht ->]]; cbn [resultNodes textOfList flat_map];
    rewrite !textOf_Link; cbn [textOfList flat_map textOf].
  - rewrite Ht in Hall. rewrite !app_nil_r in *. exact Hall.
  - rewrite !app_nil_r, <- app_assoc. exact Hall.
Qed.

(** X1. Whenever [findUrl] accepts a match, the text of the link followed
    by the text of the trailing node (when there is one) is
    [protocol + domain + path]: trimming moves characters out of the link,
    it never drops or adds any. *)
Theorem findUrl_keeps_text (whole protocol domain path : jsstring)
  (m : RegExpMatchObject) :
  findUrl whole protocol domain path m <> RFalse ->
  textOfList (resultNodes (findUrl whole protocol domain path m))
  = protocol ++ domain ++ path.
Proof.
  intros Hacc. destruct (findUrl_text whole protocol domain path m);
    [contradiction | assumption].
Qed.

Lemma mention_text (connectedInstance prefix name label whole : jsstring)
  (m : RegExpMatchObject) :
  (buildFindUser connectedInstance prefix whole (prefix ++ name) label m = RFalse
   \/ textOfList (resultNodes (buildFindUser connectedInstance prefix whole
                                 (prefix ++ name) label m))
      = (prefix ++ name) ++ lit "@" ++ label) /\
  (buildFindCommunity connectedInstance prefix whole (prefix ++ name) label m
   = RFalse
   \/ textOfList (resultNodes (buildFindCommunity connectedInstance prefix whole
                                 (prefix ++ name) label m))
      = (prefix ++ name) ++ lit "@" ++ label).
Proof.
  unfold buildFindUser, buildFindCommunity.
  destruct (negb (previous m true) || test re_labelEnd label);
    [split; now left|].
  rewrite sliceFrom_prefix.
  split; right; cbn [resultNodes textOfList flat_map]; rewrite textOf_Link;
    cbn [textOfList flat_map textOf]; rewrite !app_nil_r;
    now rewrite <- app_assoc.
Qed.

Lemma findEmail_text (whole atext label : jsstring) (m : RegExpMatchObject) :
  findEmail whole atext label m = RFalse \/
  textOfList (resultNodes (findEmail whole atext label m))
  = atext ++ lit "@" ++ label.
Proof.
  unfold findEmail. cbn zeta.
  destruct (negb (previous m true) || test re_labelEnd label); [now left|].
  destruct (codeIs _ 33 || codeIs _ 64); [now left|].
  right. cbn [resultNodes textOfList flat_map]. rewrite textOf_Link.
  cbn [textOfList flat_map textOf]. now rewrite !app_nil_r.
Qed.

Lemma keepsText_url : keepsText re_url (spread3 findUrl).
Proof.
  split; [reflexivity|]. intros v lastIndex m E.
  destruct (exec_url _ _ _ E) as (p & d & pa & -> & -> & Hd).
  split; [destruct p, d; try discriminate; contradiction|].
  cbn [spread3]. apply findUrl_text.
Qed.

Lemma keepsText_user (connectedInstance : jsstring) (prefix : string) :
  keepsText (re_mention prefix)
            (spread2 (buildFindUser connectedInstance (lit prefix))).
Proof.
  split; [reflexivity|]. intros v lastIndex m E.
  destruct (exec_mention _ _ _ _ E) as (name & c & lab & -> & -> & _).
  split; [destruct (lit prefix ++ name); discriminate|].
  cbn [spread2]. apply (mention_text connectedInstance (lit prefix) name).
Qed.

Lemma keepsText_community (connectedInstance : jsstring) (prefix : string) :
  keepsText (re_mention prefix)
            (spread2 (buildFindCommunity connectedInstance (lit prefix))).
Proof.
  split; [reflexivity|]. intros v lastIndex m E.
  destruct (exec_mention _ _ _ _ E) as (name & c & lab & -> & -> & _).
  split; [destruct (lit prefix ++ name); discriminate|].
  cbn [spread2]. apply (mention_text connectedInstance (lit prefix) name).
Qed.

Lemma keepsText_email : keepsText re_email (spread2 findEmail).
Proof.
  split; [reflexivity|]. intros v lastIndex m E.
  destruct (exec_mention _ _ _ _ E) as (name & c & lab & -> & -> & _).
  split; [destruct (lit "" ++ name); discriminate|].
  cbn [spread2]. apply findEmail_text.
Qed.

Lemma patternTable_keepsText (connectedInstance : jsstring) :
  Forall (fun p => keepsText (fst p) (snd p)) (patternTable connectedInstance).
Proof.
  unfold patternTable. cbn zeta.
  repeat (apply Forall_cons;
          [cbn [fst snd];
           first [ exact keepsText_url | apply keepsText_user
                 | apply keepsText_community | exact keepsText_email ]|]).
  apply Forall_nil.
Qed.

(** X2. The transform is total and keeps the text: for every connected
    instance and every tree it returns a tree (the walk never runs out of
    rounds), and the text nodes of the result, read in order, spell
    exactly the text of the input. *)
Theorem transform_keeps_text (connectedInstance : jsstring) (tree : Node) :
  exists tree',
    transformGfmAutolinkLiterals connectedInstance tree = Some tree' /\
    textOf tree' = textOf tree.
Proof.
  apply findAndReplace_text, patternTable_keepsText.
Qed.

(** ** What the transform leaves alone *)

Lemma visit_noFreeText (ignore : list string) (find : RegExp)
  (replace : ReplaceFunction) (n : Node) :
  noFreeText ignore n = true -> visit ignore find replace n = Some n.
Proof.
  assert (Hchildren :
    forall cs,
      Forall (fun n => noFreeText ignore n = true ->
                       visit ignore find replace n = Some n) cs ->
      (fix all (l : list Node) : bool :=
         match l with
         | [] => true
         | c :: t =>
             match c with
             | Text _ => false
             | _ => noFreeText ignore c
             end && all t
         end) cs = true ->
      (fix children (l : list Node) : option (list Node) :=
         match l with
         | [] => Some []
         | c :: t =>
             match
               match c with
               | Text v =>
                   replaceInText (S (length v)) find replace v 0 0 [] false
               | _ => option_map (fun c' => [c'])
                                 (visit ignore find replace c)
               end, children t
             with
             | Some a, Some b => Some (a ++ b)
             | _, _ => None
             end
         end) cs = Some cs).
  { induction 1 as [|c cs Hc _ IH]; [reflexivity|]. intros H.
    apply andb_prop in H as [H1 H2]. rewrite (IH H2).
    destruct c as [v | title u l | ty l]; [discriminate | |];
      rewrite (Hc H1); reflexivity. }
  induction n as [v | title u cs IH | ty cs IH] using Node_induction;
    cbn [visit noFreeText]; destruct (ignored ignore _); cbn [orb];
    try reflexivity; intros H; now rewrite (Hchildren cs IH H).
Qed.

Lemma findAndReplace_noFreeText (ignore : list string)
  (pairs : list (RegExp * ReplaceFunction)) (tree : Node) :
  noFreeText ignore tree = true ->
  findAndReplace tree pairs ignore = Some tree.
Proof.
  intros H. induction pairs as [|[find replace] pairs IH]; [reflexivity|].
  cbn [findAndReplace]. now rewrite visit_noFreeText.
Qed.

(** X3. Existing links are never rescanned: a tree whose every text node
    is the root itself or lies below a link or link reference comes back
    from the transform unchanged. *)
Theorem transform_skips_links (connectedInstance : jsstring) (tree : Node) :
  noFreeText ["link"; "linkReference"]%string tree = true ->
  transformGfmAutolinkLiterals connectedInstance tree = Some tree.
Proof. apply findAndReplace_noFreeText. Qed.

Lemma In_firstn {A} (x : A) (n : nat) (l : list A) :
  In x (firstn n l) -> In x l.
Proof.
  intros H. rewrite <- (firstn_skipn n l). apply in_or_app. now left.
Qed.

Lemma exec_whole_In (re : RegExp) (v : jsstring) (lastIndex : nat)
  (m : ExecResult) (c : code) :
  exec re v lastIndex = Some m -> In c (exec_whole m) -> In c v.
Proof.
  intros E H. apply exec_whole_at in E.
  apply (In_firstn c (exec_index m + length (exec_whole m))).
  rewrite E. apply in_or_app. now right.
Qed.

Lemma split_nodot (d : jsstring) : ~ In c_dot d -> split c_dot d = [d].
Proof.
  induction d as [|c d IH]; intros H; [reflexivity|].
  cbn [split]. destruct (Z.eqb_spec c c_dot) as [->|Hne].
  - exfalso. apply H. now left.
  - rewrite IH; [reflexivity|]. intros Hd. apply H. now right.
Qed.

Lemma isCorrectDomain_nodot (d : jsstring) :
  ~ In c_dot d -> isCorrectDomain d = false.
Proof. intros H. unfold isCorrectDomain. now rewrite split_nodot. Qed.

Lemma needsDot_url : needsDot re_url (spread3 findUrl).
Proof.
  split; [reflexivity|]. intros v lastIndex m Hdot E.
  destruct (exec_url _ _ _ E) as (p & d & pa & Hg & Hw & _).
  assert (Hin : forall c, In c (p ++ d) -> In c v).
  { intros c Hc. apply (exec_whole_In _ _ _ _ c E). rewrite Hw, app_assoc.
    apply in_or_app. now left. }
  rewrite Hg. cbn [spread3]. unfold findUrl.
  destruct (negb (previous _ false)); [reflexivity|].
  destruct (test re_w p).
  - rewrite isCorrectDomain_nodot; [reflexivity|]. intros H. apply Hdot, Hin, H.
  - rewrite isCorrectDomain_nodot; [reflexivity|]. intros H.
    apply Hdot, Hin. apply in_or_app. now right.
Qed.

Lemma needsDot_mention (prefix : string) (replace : ReplaceFunction) :
  needsDot (re_mention prefix) replace.
Proof.
  split; [reflexivity|]. intros v lastIndex m Hdot E. exfalso. apply Hdot.
  destruct (exec_mention _ _ _ _ E) as (name & c & lab & _ & Hw & _ & _ & _ & Hl).
  apply (exec_whole_In _ _ _ _ c_dot E). rewrite Hw.
  apply in_or_app. right. apply in_or_app. right. now right.
Qed.

Lemma patternTable_needsDot (connectedInstance : jsstring) :
  Forall (fun p => needsDot (fst p) (snd p)) (patternTable connectedInstance).
Proof.
  unfold patternTable. cbn zeta.
  repeat (apply Forall_cons;
          [cbn [fst snd]; first [exact needsDot_url | apply needsDot_mention]|]).
  apply Forall_nil.
Qed.

Lemma replaceInText_rejected (find : RegExp) (replace : ReplaceFunction)
  (v : jsstring) :
  needsDot find replace -> ~ In c_dot v ->
  forall fuel lastIndex start nodes change,
    (S (length v) - lastIndex <= fuel)%nat ->
    replaceInText fuel find replace v lastIndex start nodes change
    = Some (finishText v start nodes change).
Proof.
  intros [Hglobal Hrej] Hdot.
  induction fuel as [|fuel IH]; intros lastIndex start nodes change Hf;
    cbn [replaceInText]; destruct (exec find v lastIndex) as [m|] eqn:E;
    try reflexivity.
  - apply exec_sound in E. destruct E as (_ & Hli & Hlen & _).
    rewrite Hglobal in Hli. lia.
  - rewrite (Hrej _ _ _ Hdot E), Hglobal.
    apply exec_sound in E. destruct E as (_ & Hli & Hlen & _).
    rewrite Hglobal in Hli. apply IH. lia.
Qed.

Lemma visit_nodot (ignore : list string) (find : RegExp)
  (replace : ReplaceFunction) :
  needsDot find replace ->
  forall n, ~ In c_dot (textOf n) -> visit ignore find replace n = Some n.
Proof.
  intros K.
  assert (Hchildren :
    forall cs,
      Forall (fun n => ~ In c_dot (textOf n) ->
                       visit ignore find replace n = Some n) cs ->
      ~ In c_dot (textOfList cs) ->
      (fix children (l : list Node) : option (list Node) :=
         match l with
         | [] => Some []
         | c :: t =>
             match
               match c with
               | Text v =>
                   replaceInText (S (length v)) find replace v 0 0 [] false
               | _ => option_map (fun c' => [c'])
                                 (visit ignore find replace c)
               end, children t
             with
             | Some a, Some b => Some (a ++ b)
             | _, _ => None
             end
         end) cs = Some cs).
  { induction 1 as [|c cs Hc _ IH]; [reflexivity|]. intros H.
    assert (H1 : ~ In c_dot (textOf c))
      by (intros X; apply H; simpl; apply in_or_app; now left).
    assert (H2 : ~ In c_dot (textOfList cs))
      by (intros X; apply H; simpl; apply in_or_app; now right).
    rewrite (IH H2).
    destruct c as [v | title u l | ty l].
    - rewrite (replaceInText_rejected find replace v K H1) by lia. reflexivity.
    - rewrite (Hc H1). reflexivity.
    - rewrite (Hc H1). reflexivity. }
  induction n as [v | title u cs IH | ty cs IH] using Node_induction;
    cbn [visit]; destruct (ignored ignore _); try reflexivity; intros H.
  - rewrite textOf_Link in H. now rewrite (Hchildren cs IH H).
  - rewrite textOf_Parent in H. now rewrite (Hchildren cs IH H).
Qed.

Lemma findAndReplace_nodot (ignore : list string)
  (pairs : list (RegExp * ReplaceFunction)) (tree : Node) :
  Forall (fun p => needsDot (fst p) (snd p)) pairs ->
  ~ In c_dot (textOf tree) ->
  findAndReplace tree pairs ignore = Some tree.
Proof.
  intros HF H. induction HF as [|[find replace] pairs K _ IH]; [reflexivity|].
  cbn [findAndReplace]. now rewrite (visit_nodot ignore find replace K tree H).
Qed.

(** X4. No dot, no link: a tree whose text holds no [.] comes back from
    the transform unchanged.  The mention and email patterns need a dot in
    the server, and [findUrl] rejects a domain without one. *)
Theorem transform_needs_dot (connectedInstance : jsstring) (tree : Node) :
  ~ In c_dot (textOf tree) ->
  transformGfmAutolinkLiterals connectedInstance tree = Some tree.
Proof. apply findAndReplace_nodot, patternTable_needsDot. Qed.

(** ** More on splitUrl *)

Lemma scan_run_end_complete (items : list ClassItem) (s : jsstring) (p : nat) :
  endsWith (classHas items) s = true ->
  scan (plainRe (RSeq (RPlus (RClass false items)) REnd)) p s <> None.
Proof.
  revert p. induction s as [|x s IH]; intros p H; [discriminate|].
  cbn [scan plainRe pattern ignoreCase groupCount]. rewrite rmatch_run_end.
  destruct (forallb (classHas items) (x :: s)) eqn:F; [discriminate|].
  destruct s as [|y s].
  - unfold endsWith in H. simpl in H, F. rewrite H in F. discriminate.
  - apply IH. now rewrite <- endsWith_cons with (x := x).
Qed.

Lemma endsWith_app (p : code -> bool) (a b : jsstring) :
  b <> [] -> endsWith p (a ++ b) = endsWith p b.
Proof.
  intros Hb. unfold endsWith. rewrite rev_app_distr.
  destruct (rev b) as [|c l] eqn:E; [|reflexivity].
  apply (f_equal (@rev code)) in E. rewrite rev_involutive in E. contradiction.
Qed.

Lemma endsWith_forallb (p : code -> bool) (w : jsstring) :
  w <> [] -> forallb p w = true -> endsWith p w = true.
Proof.
  intros Hw Hf. unfold endsWith. destruct (rev w) as [|c l] eqn:E.
  - apply (f_equal (@rev code)) in E. rewrite rev_involutive in E. contradiction.
  - rewrite forallb_forall in Hf. apply Hf. apply in_rev. rewrite E. now left.
Qed.

Lemma exec_trail_none (s : jsstring) :
  exec re_trail s 0 = None <-> endsWith isTrailChar s = false.
Proof.
  split.
  - intros H. destruct (endsWith isTrailChar s) eqn:E; [|reflexivity].
    exfalso. revert H. unfold exec.
    cbn [global re_trail plainRe Nat.ltb Nat.leb skipn].
    now apply scan_run_end_complete.
  - intros H. destruct (exec re_trail s 0) as [r|] eqn:E; [|reflexivity].
    destruct (exec_trail s r E) as (pre & Hs & _ & Hall & Hne & _).
    rewrite Hs, endsWith_app, endsWith_forallb in H; congruence.
Qed.

(** X5. [splitUrl] reports no trail ([undefined]) exactly when the input
    does not end in closing punctuation, and then returns the input
    itself; an input that ends in closing punctuation always gets a trail,
    possibly the empty string. *)
Theorem splitUrl_undefined_iff (s : jsstring) :
  (snd (splitUrl s) = None <-> endsWith isTrailChar s = false) /\
  (snd (splitUrl s) = None -> fst (splitUrl s) = s).
Proof.
  destruct (splitUrl_cases s) as [(E0 & E & _) | (r & n & E0 & Hr)].
  - rewrite E. cbn [fst snd]. split; [|reflexivity].
    split; [intros _; now apply exec_trail_none | reflexivity].
  - cbn zeta in Hr. destruct Hr as (_ & _ & _ & E & _).
    rewrite E. cbn [fst snd]. split; [|discriminate].
    split; [discriminate|]. intros H. apply exec_trail_none in H. congruence.
Qed.

Lemma indexOf_absent (s : jsstring) (c : code) :
  indexOf s c = -1 -> ~ In c s.
Proof.
  intros H Hin. unfold indexOf in H.
  destruct (indexOfFrom_spec c s 0) as [H1 _].
  assert (H0 : ccount s c = 0) by (apply H1; split; [exact H | lia]).
  clear H H1. induction s as [|x s IH]; [contradiction|].
  simpl in H0. pose proof (ccount_nonneg s c).
  destruct Hin as [-> | Hin].
  - rewrite Z.eqb_refl in H0. lia.
  - apply IH; [exact Hin|]. destruct (x =? c); lia.
Qed.

(** X6. A closing parenthesis is left in the trail only when the kept part
    has no opening parenthesis waiting for it: if the trail holds a [)],
    the kept part has at most as many [(] as [)]. *)
Theorem splitUrl_leaves_unmatched (s kept trimmed : jsstring) :
  splitUrl s = (kept, Some trimmed) ->
  In c_rparen trimmed ->
  ccount kept c_lparen <= ccount kept c_rparen.
Proof.
  intros H Hin.
  destruct (splitUrl_cases s) as [(_ & E & _) | (r & n & _ & Hr)];
    [rewrite E in H; discriminate|].
  cbn zeta in Hr. destruct Hr as (_ & _ & _ & E & HI & Hc & _).
  rewrite E in H. injection H as <- <-.
  destruct HI as (_ & _ & Hidx & Hcl & Hop & _).
  unfold loopCond in Hc. rewrite Hidx, Hcl in Hc.
  apply andb_false_iff in Hc as [Hc | Hc].
  - apply negb_false_iff, Z.eqb_eq, indexOf_absent in Hc. contradiction.
  - rewrite Hop. destruct (Z.gtb_spec (ccount (url (splitInit s r)) c_lparen)
                             (ccount (url (rounds n (splitInit s r))) c_rparen));
      [discriminate | lia].
Qed.

Lemma indexOfFrom_nth (c : code) (s : jsstring) (i : Z) (k : nat) :
  0 <= i -> indexOfFrom c s i = i + Z.of_nat k -> nth_error s k = Some c.
Proof.
  revert i k. induction s as [|x s IH]; intros i k Hi H; cbn [indexOfFrom] in H.
  - lia.
  - destruct (Z.eqb_spec x c) as [->|Hne].
    + assert (k = 0%nat) by lia. subst. reflexivity.
    + destruct k as [|k].
      * destruct (indexOfFrom_spec c s (i + 1)) as [_ H2].
        destruct H2 as [H2 | (j & Hj & _)]; lia.
      * cbn [nth_error]. apply (IH (i + 1)); lia.
Qed.

Lemma indexOfFrom_app_l (c : code) (a b : jsstring) (i : Z) (j : nat) :
  0 <= i -> indexOfFrom c (a ++ b) i = i + Z.of_nat j -> (j < length a)%nat ->
  indexOfFrom c a i = i + Z.of_nat j.
Proof.
  revert i j. induction a as [|x a IH]; intros i j Hi H Hj; [simpl in Hj; lia|].
  cbn [app indexOfFrom] in *. destruct (Z.eqb_spec x c) as [->|Hne]; [exact H|].
  destruct j as [|j].
  - destruct (indexOfFrom_spec c (a ++ b) (i + 1)) as [_ H2].
    destruct H2 as [H2 | (k & Hk & _)]; lia.
  - replace (i + Z.of_nat (S j)) with (i + 1 + Z.of_nat j) in * by lia.
    apply IH; [lia | exact H | simpl in Hj; lia].
Qed.

Lemma firstn_snoc_nth {A} (l : list A) (k : nat) (x : A) :
  nth_error l k = Some x -> firstn (S k) l = firstn k l ++ [x].
Proof.
  revert k. induction l as [|y l IH]; intros [|k] H; try discriminate.
  - injection H as ->. reflexivity.
  - cbn [firstn app]. f_equal. now apply IH.
Qed.

Lemma endsWith_snoc (p : code -> bool) (a : jsstring) (c : code) :
  endsWith p (a ++ [c]) = p c.
Proof. unfold endsWith. now rewrite rev_app_distr. Qed.

Lemma endsWith_weaken (p q : code -> bool) (s : jsstring) :
  (forall c, q c = true -> p c = true) ->
  endsWith p s = false -> endsWith q s = false.
Proof.
  intros H. unfold endsWith. destruct (rev s) as [|c l]; [reflexivity|].
  intros Hp. destruct (q c) eqn:E; [|reflexivity]. apply H in E. congruence.
Qed.

(** What one round does, once the condition holds. *)
Lemma loopBody_round (s : jsstring) (op b : Z) (st : SplitState) :
  SplitInv s op b st -> loopCond op st = true ->
  exists k,
    closingParenIndex st = Z.of_nat k /\ (k < length (trail st))%nat /\
    url (loopBody st) = url st ++ firstn k (trail st) ++ [c_rparen] /\
    trail (loopBody st) = skipn (S k) (trail st) /\
    trail st = (firstn k (trail st) ++ [c_rparen]) ++ trail (loopBody st).
Proof.
  intros (_ & _ & Hidx & _) Hc.
  unfold loopCond in Hc. apply andb_prop in Hc as [Hne _].
  apply negb_true_iff, Z.eqb_neq in Hne. rewrite Hidx in Hne.
  destruct (indexOf_found _ _ Hne) as (k & Hk & Hklt & _).
  assert (Hnth : nth_error (trail st) k = Some c_rparen).
  { apply (indexOfFrom_nth c_rparen (trail st) 0 k); [lia | exact Hk]. }
  exists k. unfold loopBody. cbn [url trail]. rewrite Hidx, Hk.
  replace (Z.of_nat k + 1) with (Z.of_nat (S k)) by lia.
  rewrite slice_prefix, sliceFrom_skipn, (firstn_snoc_nth _ _ _ Hnth).
  conj; [reflexivity | exact Hklt | reflexivity | reflexivity |].
  rewrite <- (firstn_snoc_nth _ _ _ Hnth). symmetry. apply firstn_skipn.
Qed.

Lemma rounds_inv (s : jsstring) (op b : Z) (n : nat) (st : SplitState) :
  SplitInv s op b st ->
  (forall k, (k < n)%nat -> loopCond op (rounds k st) = true) ->
  SplitInv s op b (rounds n st).
Proof.
  revert st. induction n as [|n IH]; intros st HI Hc; [exact HI|].
  cbn [rounds]. apply IH.
  - apply (SplitInv_body s op b st HI). apply (Hc 0%nat). lia.
  - intros k Hk. apply (Hc (S k)). lia.
Qed.

(** X7. The kept part never ends in closing punctuation other than [)]:
    it is the input before its trailing run, or it ends in a closing
    parenthesis the loop took back. *)
Theorem splitUrl_kept_end (s : jsstring) :
  endsWith (fun c => isTrailChar c && negb (c =? c_rparen))
           (fst (splitUrl s)) = false.
Proof.
  assert (Hw : forall c, isTrailChar c && negb (c =? c_rparen) = true ->
                         isTrailChar c = true)
    by (intros c H; now apply andb_prop in H).
  destruct (splitUrl_cases s) as [(E0 & E & _) | (r & n & E0 & Hr)].
  - rewrite E. cbn [fst]. apply (endsWith_weaken isTrailChar); [exact Hw|].
    now apply exec_trail_none.
  - cbn zeta in Hr. destruct Hr as (_ & _ & _ & E & _ & _ & Hk).
    rewrite E. cbn [fst]. destruct n as [|n].
    + cbn [rounds]. apply (endsWith_weaken isTrailChar); [exact Hw|].
      now destruct (splitInit_exec s r E0) as (_ & _ & _ & H).
    + rewrite rounds_succ.
      assert (HI : SplitInv s (ccount (url (splitInit s r)) c_lparen)
                     (ccount (url (splitInit s r)) c_rparen)
                     (rounds n (splitInit s r))).
      { apply rounds_inv; [now apply SplitInv_init|].
        intros k Hlt. apply Hk. lia. }
      destruct (loopBody_round _ _ _ _ HI) as (k & _ & _ & -> & _);
        [apply Hk; lia|].
      rewrite app_assoc, endsWith_snoc, Z.eqb_refl. apply andb_false_r.
Qed.

(** What the rounds taken so far moved from the trail to the kept part. *)
Lemma rounds_moved (s : jsstring) (op b : Z) (n : nat) (st : SplitState) :
  SplitInv s op b st ->
  (forall k, (k < n)%nat -> loopCond op (rounds k st) = true) ->
  exists moved,
    url (rounds n st) = url st ++ moved /\
    trail st = moved ++ trail (rounds n st) /\
    (n <= length moved)%nat.
Proof.
  revert st. induction n as [|n IH]; intros st HI Hc.
  - exists []. cbn [rounds]. conj; [now rewrite app_nil_r | reflexivity | simpl; lia].
  - assert (H0 : loopCond op st = true) by (apply (Hc 0%nat); lia).
    destruct (loopBody_round _ _ _ _ HI H0) as (k & _ & _ & Hu & _ & Ht).
    destruct (IH (loopBody st)) as (moved & Hu' & Ht' & Hn).
    + now apply (SplitInv_body s op b st HI).
    + intros j Hj. apply (Hc (S j)). lia.
    + exists ((firstn k (trail st) ++ [c_rparen]) ++ moved). cbn [rounds].
      conj.
      * rewrite Hu', Hu. now rewrite <- !app_assoc.
      * rewrite Ht at 1. rewrite Ht' at 1. now rewrite <- !app_assoc.
      * rewrite !length_app. simpl. lia.
Qed.

Lemma indexOf_app_l (a b : jsstring) (c : code) (j : nat) :
  indexOf (a ++ b) c = Z.of_nat j -> (j < length a)%nat ->
  indexOf a c = Z.of_nat j.
Proof.
  unfold indexOf. intros H Hj.
  replace (Z.of_nat j) with (0 + Z.of_nat j) in * by lia.
  now apply (indexOfFrom_app_l c a b).
Qed.

(** The maximal trailing run of a string is unique. *)
Lemma run_unique (p : code -> bool) (pre1 w1 pre2 w2 : jsstring) :
  pre1 ++ w1 = pre2 ++ w2 ->
  forallb p w1 = true -> forallb p w2 = true ->
  endsWith p pre1 = false -> endsWith p pre2 = false ->
  pre1 = pre2 /\ w1 = w2.
Proof.
  intros E F1 F2 E1 E2.
  apply app_eq_app in E. destruct E as (l & [[-> ->] | [-> ->]]).
  - destruct l as [|c l]; [now rewrite app_nil_r|]. exfalso.
    rewrite endsWith_app in E1 by discriminate.
    rewrite forallb_app in F2. apply andb_prop in F2 as [F2 _].
    rewrite endsWith_forallb in E1; [discriminate | discriminate | exact F2].
  - destruct l as [|c l]; [now rewrite app_nil_r|]. exfalso.
    rewrite endsWith_app in E2 by discriminate.
    rewrite forallb_app in F1. apply andb_prop in F1 as [F1 _].
    rewrite endsWith_forallb in E2; [discriminate | discriminate | exact F1].
Qed.

(** The loop on a trail cut off where the full run stops takes the same
    rounds and ends with nothing left. *)
Lemma rounds_cut (s s' : jsstring) (op b b' : Z) (rest0 : jsstring) (n : nat) :
  forall st st',
    SplitInv s op b st -> SplitInv s' op b' st' ->
    url st' = url st -> closingParens st' = closingParens st ->
    trail st = trail st' ++ rest0 ->
    (forall k, (k < n)%nat -> loopCond op (rounds k st) = true) ->
    trail (rounds n st) = rest0 ->
    (forall k, (k < n)%nat -> loopCond op (rounds k st') = true) /\
    url (rounds n st') = url (rounds n st) /\
    trail (rounds n st') = [].
Proof.
  induction n as [|n IH]; intros st st' HI HI' Hu Hcl Ht Hc Hend.
  - cbn [rounds] in *. conj; [intros; lia | exact Hu |].
    rewrite Hend in Ht. apply (app_inv_tail rest0). now rewrite <- Ht.
  - assert (H0 : loopCond op st = true) by (apply (Hc 0%nat); lia).
    destruct (loopBody_round _ _ _ _ HI H0) as (k & Hk & Hklt & Hbu & Hbt & _).
    destruct (rounds_moved s op b n (loopBody st)) as (moved & _ & Hm & _).
    { now apply (SplitInv_body s op b st HI). }
    { intros j Hj. apply (Hc (S j)). lia. }
    cbn [rounds] in Hend. rewrite Hend in Hm.
    assert (Hk' : (k < length (trail st'))%nat).
    { apply (f_equal (@length code)) in Hm.
      rewrite Hbt, length_skipn, Ht, !length_app in Hm.
      rewrite Ht, length_app in Hklt. lia. }
    assert (Hidx' : closingParenIndex st' = Z.of_nat k).
    { destruct HI' as (_ & _ & -> & _). destruct HI as (_ & _ & Hi & _).
      rewrite Hi, Ht in Hk. now apply (indexOf_app_l _ rest0). }
    assert (H0' : loopCond op st' = true).
    { unfold loopCond in *. rewrite Hidx', Hcl. rewrite Hk in H0. exact H0. }
    destruct (loopBody_round _ _ _ _ HI' H0')
      as (k2 & Hk2 & _ & Hbu' & Hbt' & _).
    assert (k2 = k) by lia. subst k2.
    destruct (IH (loopBody st) (loopBody st')) as (Hc' & Hu' & Ht').
    + now apply (SplitInv_body s op b st HI).
    + now apply (SplitInv_body s' op b' st' HI').
    + rewrite Hbu, Hbu', Hu, Ht, firstn_app.
      replace (k - length (trail st'))%nat with 0%nat by lia.
      now rewrite firstn_O, app_nil_r.
    + unfold loopBody. cbn [closingParens]. now rewrite Hcl.
    + rewrite Hbt, Hbt', Ht, skipn_app.
      replace (S k - length (trail st'))%nat with 0%nat by lia.
      reflexivity.
    + intros j Hj. apply (Hc (S j)). lia.
    + exact Hend.
    + cbn [rounds]. conj; [|exact Hu' | exact Ht'].
      intros [|j] Hj; [exact H0' | apply Hc'; lia].
Qed.

(** The number of rounds is determined by where the condition first
    fails. *)
Lemma rounds_stop_unique (op : Z) (st : SplitState) (n n' : nat) :
  (forall k, (k < n)%nat -> loopCond op (rounds k st) = true) ->
  loopCond op (rounds n st) = false ->
  (forall k, (k < n')%nat -> loopCond op (rounds k st) = true) ->
  loopCond op (rounds n' st) = false ->
  n = n'.
Proof.
  intros H1 H2 H3 H4.
  destruct (Nat.lt_trichotomy n n') as [Hlt | [-> | Hlt]]; [|reflexivity|].
  - rewrite (H3 n Hlt) in H2. discriminate.
  - rewrite (H1 n' Hlt) in H4. discriminate.
Qed.

Lemma splitUrl_again (s : jsstring) :
  fst (splitUrl (fst (splitUrl s))) = fst (splitUrl s) /\
  orEmpty (snd (splitUrl (fst (splitUrl s)))) = [].
Proof.
  destruct (splitUrl_cases s) as [(E0 & E & _) | (r & n & E0 & Hr)].
  - rewrite E. cbn [fst]. rewrite E. split; reflexivity.
  - cbn zeta in Hr. destruct Hr as (_ & _ & _ & E & HI & Hstop & Hk).
    rewrite E. cbn [fst].
    set (st0 := splitInit s r) in *. set (op := ccount (url st0) c_lparen) in *.
    assert (Hc : forall k, (k < n)%nat -> loopCond op (rounds k st0) = true)
      by (intros k Hlt; now apply Hk).
    pose proof (SplitInv_init s r E0) as HI0. fold st0 op in HI0.
    destruct (rounds_moved _ _ _ n st0 HI0 Hc) as (moved & Hu & Ht & Hn).
    destruct (splitInit_exec s r E0) as (_ & Hall & _ & Hend). fold st0 in Hall, Hend.
    set (K := url (rounds n st0)) in *.
    destruct (splitUrl_cases K) as [(_ & EK & _) | (r' & n' & EK0 & Hr')].
    + rewrite EK. split; reflexivity.
    + cbn zeta in Hr'. destruct Hr' as (_ & _ & _ & EK & HI' & Hstop' & Hk').
      rewrite EK. cbn [fst snd orEmpty].
      set (st0' := splitInit K r') in *.
      pose proof (SplitInv_init K r' EK0) as HI0'. fold st0' in HI0'.
      destruct (splitInit_exec K r' EK0) as (HK & Hall' & _ & Hend').
      fold st0' in HK, Hall', Hend'.
      assert (Hm : forallb isTrailChar moved = true).
      { rewrite Ht, forallb_app in Hall. now apply andb_prop in Hall. }
      destruct (run_unique isTrailChar (url st0') (trail st0') (url st0) moved)
        as [Eu Et]; [now rewrite <- HK | assumption..|].
      rewrite Eu in *.
      assert (Ecl : closingParens st0' = closingParens st0).
      { destruct HI0' as (_ & _ & _ & -> & _).
        destruct HI0 as (_ & _ & _ & -> & _). now rewrite Eu. }
      destruct (rounds_cut s K op (ccount (url st0) c_rparen)
                           (ccount (url st0) c_rparen)
                           (trail (rounds n st0)) n st0 st0')
        as (Hc' & Hu' & Ht'); try assumption; try reflexivity.
      { now rewrite Et. }
      assert (Hstop2 : loopCond op (rounds n st0') = false).
      { assert (HIn : SplitInv K op (ccount (url st0) c_rparen) (rounds n st0'))
          by (apply rounds_inv; assumption).
        destruct HIn as (_ & _ & Hidx & _). unfold loopCond.
        rewrite Hidx, Ht'. reflexivity. }
      assert (n' = n).
      { apply (rounds_stop_unique op st0'); try assumption.
        intros k Hlt. now apply Hk'. }
      subst n'. rewrite Hu', Ht'. split; reflexivity.
Qed.

(** X8. Splitting is idempotent on the kept part: splitting what
    [splitUrl] kept keeps all of it and leaves no trailing text. *)
Theorem splitUrl_idempotent (s : jsstring) :
  fst (splitUrl (fst (splitUrl s))) = fst (splitUrl s) /\
  orEmpty (snd (splitUrl (fst (splitUrl s)))) = [].
Proof. exact (splitUrl_again s). Qed.

(** ** More on isCorrectDomain *)

Lemma split_nonempty (sep : code) (s : jsstring) : split sep s <> [].
Proof.
  destruct s as [|c s]; cbn [split]; [discriminate|].
  destruct (c =? sep); [discriminate|]. destruct (split sep s); discriminate.
Qed.

(** Splitting at a separator splits both sides. *)
Lemma split_app (sep : code) (a b : jsstring) :
  split sep (a ++ sep :: b) = split sep a ++ split sep b.
Proof.
  induction a as [|c a IH]; cbn [app split].
  - now rewrite Z.eqb_refl.
  - rewrite IH. destruct (c =? sep); [reflexivity|].
    pose proof (split_nonempty sep a) as Hne.
    destruct (split sep a) as [|h r]; [contradiction | reflexivity].
Qed.

Lemma accepted_labels (d : jsstring) :
  isCorrectDomain d = true ->
  (2 <= length (split c_dot d))%nat /\ ~ In [] (split c_dot d).
Proof.
  rewrite isCorrectDomain_negb, negb_true_iff. unfold specRejectsDomain.
  cbn zeta. rewrite !orb_false_iff. intros [[Hlen Hempty] _]. split.
  - destruct (Nat.ltb_spec (length (split c_dot d)) 2); [discriminate | lia].
  - intros Hin. rewrite <- not_true_iff_false in Hempty. apply Hempty.
    apply existsb_exists. exists []. split; [exact Hin | reflexivity].
Qed.

(** X9. An accepted domain holds a dot, neither starts nor ends with a
    dot, and has no two dots in a row. *)
Theorem isCorrectDomain_dots (d : jsstring) :
  isCorrectDomain d = true ->
  In c_dot d /\
  (forall t, d <> c_dot :: t) /\
  (forall t, d <> t ++ [c_dot]) /\
  (forall a b, d <> a ++ c_dot :: c_dot :: b).
Proof.
  intros H. destruct (accepted_labels d H) as [Hlen Hne]. conj.
  - destruct (in_dec Z.eq_dec c_dot d) as [Hin | Hnin]; [exact Hin|].
    rewrite (split_nodot d Hnin) in Hlen. simpl in Hlen. lia.
  - intros t ->. apply Hne. cbn [split]. rewrite Z.eqb_refl. now left.
  - intros t ->. apply Hne. rewrite split_app. apply in_or_app. right. now left.
  - intros a b ->. apply Hne. rewrite split_app. apply in_or_app. right.
    cbn [split]. rewrite Z.eqb_refl. now left.
Qed.

Lemma lastTwo_cons {A} (x : A) (l : list A) :
  (2 <= length l)%nat -> lastTwo (x :: l) = lastTwo l.
Proof.
  intros H. unfold lastTwo. cbn [length].
  replace (S (length l) - 2)%nat with (S (length l - 2)) by lia. reflexivity.
Qed.

(** X10. Only the last two labels are checked for underscores and
    alphanumerics: putting any non-empty, dot-free label in front of an
    accepted domain gives an accepted domain. *)
Theorem isCorrectDomain_subdomain (label d : jsstring) :
  isCorrectDomain d = true -> label <> [] -> ~ In c_dot label ->
  isCorrectDomain (label ++ c_dot :: d) = true.
Proof.
  intros H Hl Hdot. destruct (accepted_labels d H) as [Hlen _].
  rewrite isCorrectDomain_negb, negb_true_iff in *.
  unfold specRejectsDomain in *. cbn zeta in *.
  rewrite split_app, (split_nodot label Hdot). cbn [app].
  rewrite lastTwo_cons by exact Hlen.
  rewrite !orb_false_iff in *. destruct H as [[_ He] Hlast].
  conj; [| | exact Hlast].
  - cbn [length]. destruct (Nat.ltb_spec (S (length (split c_dot d))) 2);
      [lia | reflexivity].
  - cbn [existsb]. rewrite He. destruct label; [contradiction | reflexivity].
Qed.

(** ** When the handlers accept *)

Lemma split_In (sep c : code) (s l : jsstring) :
  In l (split sep s) -> In c l -> In c s.
Proof.
  revert l. induction s as [|x s IH]; intros l Hl Hc; cbn [split] in Hl.
  - destruct Hl as [<- | []]. contradiction.
  - destruct (x =? sep).
    + destruct Hl as [<- | Hl]; [contradiction | right; eauto].
    + pose proof (split_nonempty sep s) as Hne.
      destruct (split sep s) as [|h r] eqn:E; [contradiction|].
      destruct Hl as [<- | Hl].
      * destruct Hc as [-> | Hc]; [now left | right].
        apply (IH h); [now left | exact Hc].
      * right. apply (IH l); [now right | exact Hc].
Qed.

Lemma alnum_not_trail (c : code) :
  classHas alnumClass c = true -> isTrailChar c = false.
Proof.
  unfold isTrailChar, classHas, alnumClass, trailClass.
  cbn [existsb itemHas]. unfold isDigit, inRange, c_quote, ch.
  cbn [N_of_ascii N_of_digits Z.of_N N.add N.mul Pos.add Pos.mul Pos.succ].
  zbool; intros Halnum; try discriminate Halnum; try reflexivity; lia.
Qed.

(** An accepted domain holds a letter or digit. *)
Lemma accepted_has_alnum (d : jsstring) :
  isCorrectDomain d = true ->
  exists c, In c d /\ classHas alnumClass c = true.
Proof.
  intros H. pose proof (accepted_labels d H) as [Hlen _].
  rewrite isCorrectDomain_negb, negb_true_iff in H.
  unfold specRejectsDomain in H. cbn zeta in H.
  rewrite !orb_false_iff in H. destruct H as [_ Hlast].
  destruct (last_two_inv _ Hlen) as (front & a & b & Hp).
  assert (Hl : lastTwo (split c_dot d) = [a; b])
    by (rewrite Hp; apply lastTwo_app).
  rewrite Hl in Hlast. cbn [existsb] in Hlast.
  rewrite !orb_false_iff in Hlast. destruct Hlast as [_ [[_ Hb] _]].
  apply negb_false_iff in Hb. unfold hasAlnum in Hb.
  apply existsb_exists in Hb. destruct Hb as (c & Hc & Ha).
  exists c. split; [|exact Ha].
  apply (split_In c_dot c d b); [|exact Hc].
  rewrite Hp. apply in_or_app. right. right. now left.
Qed.

Lemma splitUrl_trimmed (s : jsstring) :
  forallb isTrailChar (orEmpty (snd (splitUrl s))) = true.
Proof.
  destruct (splitUrl_cases s) as [(_ & E & _) | (r & n & _ & Hr)].
  - rewrite E. reflexivity.
  - cbn zeta in Hr. destruct Hr as (_ & _ & _ & E & (_ & Hall & _) & _).
    rewrite E. exact Hall.
Qed.

(** The kept part holds every character of the input that is not closing
    punctuation. *)
Lemma splitUrl_keeps (s : jsstring) (c : code) :
  In c s -> isTrailChar c = false -> In c (fst (splitUrl s)).
Proof.
  intros Hin Hc. rewrite <- (splitUrl_app s) in Hin.
  apply in_app_or in Hin. destruct Hin as [H | H]; [exact H|].
  pose proof (splitUrl_trimmed s) as Hall. rewrite forallb_forall in Hall.
  rewrite (Hall c H) in Hc. discriminate.
Qed.

(** X11. [findUrl] accepts a match exactly when the boundary check passes
    and the domain (with [www] folded in) is correct: the kept part of a
    correct domain is never empty, so the check for an empty kept part
    never rejects anything. *)
Theorem findUrl_accepts_iff (whole protocol domain path : jsstring)
  (m : RegExpMatchObject) :
  findUrl whole protocol domain path m <> RFalse <->
  previous m false = true /\
  isCorrectDomain (if startsWithW protocol then protocol ++ domain
                   else domain) = true.
Proof.
  pose proof (findUrl_cases whole protocol domain path m) as C. cbn zeta in C.
  split.
  - intros H. destruct C as [E | (Hp & Hd & _)]; [contradiction | now split].
  - intros [Hp Hd].
    assert (Hk : fst (splitUrl ((if startsWithW protocol
                                 then protocol ++ domain else domain) ++ path))
                 <> []).
    { destruct (accepted_has_alnum _ Hd) as (c & Hc & Ha).
      intros E.
      assert (Hin : In c (fst (splitUrl ((if startsWithW protocol
                                           then protocol ++ domain
                                           else domain) ++ path)))).
      { apply splitUrl_keeps; [apply in_or_app; now left|].
        now apply alnum_not_trail. }
      rewrite E in Hin. contradiction. }
    clear C. unfold findUrl. rewrite test_w, Hp. cbn [negb].
    destruct (startsWithW protocol); rewrite Hd; cbn [negb];
      destruct (splitUrl _) as [[|k kept] [[|t0 t]|]];
      cbn [fst snd truthy negb] in *; try contradiction; discriminate.
Qed.

(** X12. [findEmail] returns a link exactly when the boundary check (with
    the slash forbidden) passes, the label does not end in [-], a digit or
    [_], and the character before the match is neither [!] nor [@]; the
    link is then [mailto:] followed by [atext@label], shown as
    [atext@label]. *)
Theorem findEmail_contract (whole atext label : jsstring)
  (m : RegExpMatchObject) :
  (findEmail whole atext label m <> RFalse <->
   previous m true = true /\
   endsWith isLabelEnd label = false /\
   charCodeAt (input m) (index m - 1) <> Some c_bang /\
   charCodeAt (input m) (index m - 1) <> Some c_at) /\
  (findEmail whole atext label m <> RFalse ->
   findEmail whole atext label m
   = ROne (Link None (lit "mailto:" ++ atext ++ lit "@" ++ label)
             [Text (atext ++ lit "@" ++ label)])).
Proof.
  unfold findEmail. cbn zeta. rewrite test_labelEnd_spec.
  destruct (previous m true); cbn [negb orb];
    [|split; [split; [contradiction | intros [? _]; discriminate]
             | contradiction]].
  destruct (endsWith isLabelEnd label);
    [split; [split; [contradiction | intros (_ & ? & _); discriminate]
            | contradiction]|].
  unfold codeIs, c_bang, c_at.
  destruct (charCodeAt (input m) (index m - 1)) as [c|]; cbn [orb].
  - destruct (Z.eqb_spec c 33) as [->|H1]; cbn [orb].
    + split; [split; [contradiction | intros (_ & _ & H & _); now destruct H]
             | contradiction].
    + destruct (Z.eqb_spec c 64) as [->|H2].
      * split; [split; [contradiction | intros (_ & _ & _ & H); now destruct H]
               | contradiction].
      * split; [|reflexivity]. split; [|discriminate].
        intros _. conj; try reflexivity; congruence.
  - split; [|reflexivity]. split; [|discriminate].
    intros _. conj; try reflexivity; discriminate.
Qed.

(** ** The captures the handlers receive *)

(** X13. The URL pattern always hands [findUrl] three strings: every
    match has its three groups defined, the domain group is not empty,
    and protocol, domain and path together spell the match. *)
Theorem url_match_groups (v : jsstring) (lastIndex : nat) (m : ExecResult) :
  exec re_url v lastIndex = Some m ->
  exists protocol domain path,
    exec_groups m = [Some protocol; Some domain; Some path] /\
    exec_whole m = protocol ++ domain ++ path /\
    domain <> [] /\
    spread3 findUrl (exec_whole m) (exec_groups m)
            (mkMatch (Z.of_nat (exec_index m)) v)
    = findUrl (exec_whole m) protocol domain path
              (mkMatch (Z.of_nat (exec_index m)) v).
Proof.
  intros E. destruct (exec_url _ _ _ E) as (p & d & pa & Hg & Hw & Hd).
  exists p, d, pa. conj; [exact Hg | exact Hw | exact Hd |].
  rewrite Hg. reflexivity.
Qed.

(** X14. The mention and email patterns always hand their handler two
    strings: the first group is the literal prefix followed by a
    non-empty name of [[-.\w+]] characters, the second is a label that
    starts with a [[-\w]] character and holds a dot, and the match is the
    two joined by [@]. *)
Theorem mention_match_groups (prefix : string) (v : jsstring)
  (lastIndex : nat) (m : ExecResult) :
  exec (re_mention prefix) v lastIndex = Some m ->
  exists name c label,
    exec_groups m = [Some (lit prefix ++ name); Some (c :: label)] /\
    exec_whole m = (lit prefix ++ name) ++ lit "@" ++ c :: label /\
    name <> [] /\ forallb (classHas atextClass) name = true /\
    classHas labelClass c = true /\ In c_dot label.
Proof. apply exec_mention. Qed.

(** ** The www form of the URL pattern *)









End Handlers.

(** ** The escape rules *)

Lemma matchesChar_class (items : list ClassItem) (c : code) :
  matchesChar (RClass false items) c = classHas items c.
Proof. unfold matchesChar. rewrite test_class. simpl. apply orb_false_r. Qed.

Lemma matchesChar_char (x c : code) : matchesChar (RChar x) c = (c =? x).
Proof.
  unfold matchesChar. rewrite test_unfold, scan_char. simpl. apply orb_false_r.
Qed.

Lemma existsb_eqb_In (x : string) (l : list string) :
  existsb (String.eqb x) l = true <-> In x l.
Proof.
  rewrite existsb_exists. split.
  - intros (y & Hy & E). apply String.eqb_eq in E. now subst.
  - intros H. exists x. split; [exact H | apply String.eqb_refl].
Qed.

(** C9. The serialisation extension declares exactly three escape rules,
    for [@], [.] and [:].  Each is in scope exactly in phrasing content
    outside autolink, link, image and label constructs.  [@] is escaped
    between a character of [[+\-.\w]] and one of [[\-.\w]], [.] between
    [w] or [W] and a character of [[\-.\w]], [:] between [p] or [s] and
    [/]. *)
Theorem escape_rules :
  map character gfmAutolinkLiteralToMarkdown = [ch "@"; ch "."; ch ":"]
  /\
  (forall rule stack,
      In rule gfmAutolinkLiteralToMarkdown ->
      (patternInScope stack rule = true <->
       In "phrasing"%string stack /\
       ~ In "autolink"%string stack /\ ~ In "link"%string stack /\
       ~ In "image"%string stack /\ ~ In "label"%string stack))
  /\
  (forall c,
      map (fun rule => matchesChar (before rule) c) gfmAutolinkLiteralToMarkdown
      = [ (c =? ch "+") || (c =? ch "-") || (c =? ch ".") || isWord c;
          (c =? ch "w") || (c =? ch "W");
          (c =? ch "p") || (c =? ch "s") ])
  /\
  (forall c,
      map (fun rule => matchesChar (after rule) c) gfmAutolinkLiteralToMarkdown
      = [ (c =? ch "-") || (c =? ch ".") || isWord c;
          (c =? ch "-") || (c =? ch ".") || isWord c;
          c =? ch "/" ]).
Proof.
  split; [reflexivity|]. split; [|split].
  - intros rule stack Hin.
    assert (Hr : inConstruct rule = "phrasing"%string /\
                 notInConstruct rule
                 = ["autolink"; "link"; "image"; "label"]%string).
    { destruct Hin as [<- | [<- | [<- | []]]]; split; reflexivity. }
    destruct Hr as [Hi Hn]. unfold patternInScope. rewrite Hi, Hn.
    rewrite andb_true_iff, negb_true_iff, existsb_eqb_In.
    cbn [existsb]. rewrite orb_false_r, !orb_false_iff.
    rewrite <- !not_true_iff_false, !existsb_eqb_In. tauto.
  - intros c. cbn [map gfmAutolinkLiteralToMarkdown before].
    rewrite !matchesChar_class. unfold classHas. cbn [existsb itemHas].
    rewrite !orb_false_r.
    destruct (c =? ch "+"), (c =? ch "-"), (c =? ch "."), (isWord c),
      (c =? ch "w"), (c =? ch "W"), (c =? ch "p"), (c =? ch "s"); reflexivity.
  - intros c. cbn [map gfmAutolinkLiteralToMarkdown after].
    rewrite !matchesChar_class, matchesChar_char. unfold classHas.
    cbn [existsb itemHas]. rewrite !orb_false_r.
    destruct (c =? ch "-"), (c =? ch "."), (isWord c); reflexivity.
Qed.

(** ** Instances on concrete inputs *)

Lemma latin_alnum_whitespace (c : code) :
  isAlnum c = true -> latinWhitespace (Some c) = false.
Proof.
  unfold isAlnum, classHas, alnumClass, latinWhitespace.
  cbn [existsb itemHas]. unfold isDigit, inRange. change (ch "a") with 97. change (ch "z") with 122.
  change (ch "A") with 65. change (ch "Z") with 90.
  zbool; intros Halnum; try discriminate Halnum; try reflexivity; lia.
Qed.

Lemma latin_alnum_punctuation (c : code) :
  isAlnum c = true -> latinPunctuation (Some c) = false.
Proof.
  unfold isAlnum, classHas, alnumClass, latinPunctuation.
  cbn [existsb itemHas]. unfold isDigit, inRange. change (ch "a") with 97. change (ch "z") with 122.
  change (ch "A") with 65. change (ch "Z") with 90.
  zbool; intros Halnum; try discriminate Halnum; try reflexivity; lia.
Qed.

Lemma mention_link_witness :
  buildFindUser latinWhitespace latinPunctuation (lit "lemmy.world") (lit "/u/")
    (lit "/u/bob@x.y.z") (lit "/u/" ++ lit "bob") (lit "x.y.z")
    (mkMatch 4 (lit "see /u/bob@x.y.z"))
  = ROne (Link None
            (lit "https://" ++ lit "lemmy.world" ++ lit "/u/" ++ lit "bob"
               ++ lit "@" ++ lit "x.y.z")
            [Text (lit "/u/" ++ lit "bob" ++ lit "@" ++ lit "x.y.z")])
  /\
  buildFindCommunity latinWhitespace latinPunctuation (lit "lemmy.world")
    (lit "/u/") (lit "/u/bob@x.y.z") (lit "/u/" ++ lit "bob") (lit "x.y.z")
    (mkMatch 4 (lit "see /u/bob@x.y.z"))
  = ROne (Link None
            (lit "https://" ++ lit "lemmy.world" ++ lit "/c/" ++ lit "bob"
               ++ lit "@" ++ lit "x.y.z")
            [Text (lit "/u/" ++ lit "bob" ++ lit "@" ++ lit "x.y.z")]).
Proof.
  apply (proj1 (mention_link latinWhitespace latinPunctuation));
    vm_compute; reflexivity.
Defined.

Lemma community_before_email_witness :
  findEmail latinWhitespace latinPunctuation (lit "bob@x.yz") (lit "bob")
    (lit "x.yz") (mkMatch 1 (lit "@bob@x.yz"))
  = RFalse.
Proof.
  apply (proj2 (proj2 (community_before_email latinWhitespace latinPunctuation))).
  right. vm_compute. reflexivity.
Defined.

Lemma findUrl_scheme_witness :
  (isCorrectDomain (lit "www" ++ lit ".example.com") = true /\
   Link None (lit "http://www.example.com/a") [Text (lit "www.example.com/a")]
   = Link None
       (lit "http://"
          ++ fst (splitUrl ((lit "www" ++ lit ".example.com") ++ lit "/a.")))
       [Text (fst (splitUrl ((lit "www" ++ lit ".example.com") ++ lit "/a.")))])
  /\
  (isCorrectDomain (lit "example.com") = true /\
   Link None (lit "https://example.com/a") [Text (lit "https://example.com/a")]
   = Link None
       (lit "https://" ++ fst (splitUrl (lit "example.com" ++ lit "/a")))
       [Text (lit "https://" ++ fst (splitUrl (lit "example.com" ++ lit "/a")))]).
Proof.
  split.
  - refine (proj1 (findUrl_scheme latinWhitespace latinPunctuation
                     (lit "www.example.com/a.") (lit "www") (lit ".example.com")
                     (lit "/a.") (mkMatch 0 (lit "www.example.com/a."))
                     _ [Text (lit ".")] _) _);
      vm_compute; reflexivity.
  - refine (proj2 (findUrl_scheme latinWhitespace latinPunctuation
                     (lit "https://example.com/a") (lit "https://")
                     (lit "example.com") (lit "/a")
                     (mkMatch 4 (lit "see https://example.com/a"))
                     _ [] _) _);
      vm_compute; reflexivity.
Defined.

Lemma boundary_rejects_alnum_witness :
  previous latinWhitespace latinPunctuation
    (mkMatch 1 (lit "xhttp://example.org")) false = false
  /\
  findUrl latinWhitespace latinPunctuation (lit "http://example.org")
    (lit "http://") (lit "example.org") []
    (mkMatch 1 (lit "xhttp://example.org"))
  = RFalse.
Proof.
  destruct (proj2 (boundary_rejects_alnum latinWhitespace latinPunctuation
                     latin_alnum_whitespace latin_alnum_punctuation)
              (mkMatch 1 (lit "xhttp://example.org")) (ch "x")
              eq_refl eq_refl) as (Hp & Hu & _).
  split; [apply Hp | apply Hu].
Defined.

Lemma findUrl_no_empty_text_witness : lit ")." <> [].
Proof.
  apply (proj1 (proj1 (proj2 (findUrl_no_empty_text
                                latinWhitespace latinPunctuation))
                  (lit "http://example.org).") (lit "http://")
                  (lit "example.org") (lit ").")
                  (mkMatch 0 (lit "http://example.org).")))).
  vm_compute. right. left. reflexivity.
Defined.

(** The scenarios of the specification, with the Basic Latin classifiers. *)

Example scenario_email_and_url :
  transformGfmAutolinkLiterals latinWhitespace latinPunctuation (lit "lemmy.world")
    (paragraph "Reach me at a.b@example.com or see (http://example.org/x).")
  = Some (Parent "paragraph"
            [Text (lit "Reach me at ");
             Link None (lit "mailto:a.b@example.com")
               [Text (lit "a.b@example.com")];
             Text (lit " or see (");
             Link None (lit "http://example.org/x")
               [Text (lit "http://example.org/x")];
             Text (lit ").")]).
Proof. vm_compute. reflexivity. Qed.

Example scenario_letter_before_url :
  transformGfmAutolinkLiterals latinWhitespace latinPunctuation (lit "lemmy.world") (paragraph "xhttp://example.org")
  = Some (paragraph "xhttp://example.org").
Proof. vm_compute. reflexivity. Qed.

Example scenario_inside_link :
  transformGfmAutolinkLiterals latinWhitespace latinPunctuation (lit "lemmy.world")
    (Parent "paragraph" [Link None (lit "/x") [Text (lit "a.b@c.de")]])
  = Some (Parent "paragraph" [Link None (lit "/x") [Text (lit "a.b@c.de")]]).
Proof. vm_compute. reflexivity. Qed.

Example scenario_balanced_paren :
  splitUrl (lit "example.org/wiki/Example_(disambiguation)")
  = (lit "example.org/wiki/Example_(disambiguation)", Some [])
  /\ splitUrl (lit "example.org).") = (lit "example.org", Some (lit ").")).
Proof. split; vm_compute; reflexivity. Qed.

(** ** The patterns and the escape rules together *)

Lemma last_char (l : jsstring) (p : code -> bool) :
  l <> [] -> forallb p l = true ->
  exists init a, l = init ++ [a] /\ p a = true.
Proof.
  intros Hne Hall. destruct (exists_last Hne) as (init & a & ->).
  exists init, a. split; [reflexivity|].
  rewrite forallb_app in Hall. apply andb_prop in Hall as [_ Hall].
  simpl in Hall. now rewrite andb_true_r in Hall.
Qed.

(** X15. Every [@] that can make a mention or an email is one the
    serialiser escapes: in every match of the five [@] patterns, the [@]
    between the two groups stands between a character of the [before]
    class and a character of the [after] class of the [@] escape rule. *)
Theorem at_sign_is_escaped (prefix : string) (v : jsstring) (lastIndex : nat)
  (m : ExecResult) :
  exec (re_mention prefix) v lastIndex = Some m ->
  exists pre a b post rule,
    exec_whole m = pre ++ a :: ch "@" :: b :: post /\
    In rule gfmAutolinkLiteralToMarkdown /\
    character rule = ch "@" /\
    matchesChar (before rule) a = true /\
    matchesChar (after rule) b = true.
Proof.
  intros E.
  destruct (exec_mention _ _ _ _ E) as (name & c & lab & _ & Hw & Hne & Hall & Hc & _).
  destruct (last_char name _ Hne Hall) as (init & a & -> & Ha).
  exists (lit prefix ++ init), a, c, lab.
  eexists. conj; [| left; reflexivity | reflexivity | |].
  - rewrite Hw. now rewrite !app_assoc, <- !app_assoc.
  - cbn [before]. rewrite matchesChar_class.
    unfold classHas, atextClass in *. cbn [existsb itemHas] in *.
    destruct (a =? ch "+"), (a =? ch "-"), (a =? ch "."), (isWord a);
      try reflexivity; discriminate.
  - cbn [after]. rewrite matchesChar_class.
    unfold classHas, labelClass in *. cbn [existsb itemHas] in *.
    destruct (c =? ch "-"), (c =? ch "."), (isWord c);
      try reflexivity; discriminate.
Qed.


(** ** Further instances on concrete inputs *)

Lemma findUrl_keeps_text_witness :
  textOfList
    (resultNodes
       (findUrl latinWhitespace latinPunctuation (lit "http://example.org/x).")
          (lit "http://") (lit "example.org") (lit "/x).")
          (mkMatch 0 (lit "http://example.org/x)."))))
  = lit "http://" ++ lit "example.org" ++ lit "/x).".
Proof.
  apply findUrl_keeps_text. vm_compute. discriminate.
Defined.

Lemma transform_skips_links_witness :
  transformGfmAutolinkLiterals latinWhitespace latinPunctuation
    (lit "lemmy.world")
    (Parent "paragraph"
       [Link None (lit "/x") [Text (lit "a.b@c.de")];
        Parent "linkReference" [Text (lit "www.example.com")]])
  = Some (Parent "paragraph"
            [Link None (lit "/x") [Text (lit "a.b@c.de")];
             Parent "linkReference" [Text (lit "www.example.com")]]).
Proof.
  apply transform_skips_links. vm_compute. reflexivity.
Defined.

Lemma transform_needs_dot_witness :
  transformGfmAutolinkLiterals latinWhitespace latinPunctuation
    (lit "lemmy.world") (paragraph "see http://localhost/x or @me@here")
  = Some (paragraph "see http://localhost/x or @me@here").
Proof.
  apply transform_needs_dot. vm_compute. intros H.
  repeat (destruct H as [H | H]; [discriminate H|]). exact H.
Defined.

Lemma splitUrl_leaves_unmatched_witness :
  ccount (lit "example.org") c_lparen <= ccount (lit "example.org") c_rparen.
Proof.
  apply (splitUrl_leaves_unmatched (lit "example.org).") (lit "example.org")
           (lit ").")).
  - vm_compute. reflexivity.
  - vm_compute. left. reflexivity.
Defined.

Lemma isCorrectDomain_dots_witness :
  In c_dot (lit "example.org") /\
  (forall t, lit "example.org" <> c_dot :: t) /\
  (forall t, lit "example.org" <> t ++ [c_dot]) /\
  (forall a b, lit "example.org" <> a ++ c_dot :: c_dot :: b).
Proof.
  apply isCorrectDomain_dots. vm_compute. reflexivity.
Defined.

Lemma isCorrectDomain_subdomain_witness :
  isCorrectDomain (lit "my_sub" ++ c_dot :: lit "example.org") = true.
Proof.
  apply isCorrectDomain_subdomain.
  - vm_compute. reflexivity.
  - discriminate.
  - vm_compute. intros H.
    repeat (destruct H as [H | H]; [discriminate H|]). exact H.
Defined.

Lemma at_sign_is_escaped_witness :
  exists pre a b post rule,
    exec_whole (mkExec 0 (lit "!community@instance.org")
                  [Some (lit "!community"); Some (lit "instance.org")])
    = pre ++ a :: ch "@" :: b :: post /\
    In rule gfmAutolinkLiteralToMarkdown /\
    character rule = ch "@" /\
    matchesChar (before rule) a = true /\
    matchesChar (after rule) b = true.
Proof.
  apply (at_sign_is_escaped "!" (lit "!community@instance.org") 0).
  vm_compute. reflexivity.
Defined.

Lemma url_match_groups_witness :
  exists protocol domain path,
    exec_groups (mkExec 4 (lit "www.example.com/a.")
                   [Some (lit "www"); Some (lit ".example.com");
                    Some (lit "/a.")])
    = [Some protocol; Some domain; Some path] /\
    exec_whole (mkExec 4 (lit "www.example.com/a.")
                  [Some (lit "www"); Some (lit ".example.com");
                   Some (lit "/a.")])
    = protocol ++ domain ++ path /\
    domain <> [] /\
    spread3 (findUrl latinWhitespace latinPunctuation)
      (exec_whole (mkExec 4 (lit "www.example.com/a.")
                     [Some (lit "www"); Some (lit ".example.com");
                      Some (lit "/a.")]))
      (exec_groups (mkExec 4 (lit "www.example.com/a.")
                      [Some (lit "www"); Some (lit ".example.com");
                       Some (lit "/a.")]))
      (mkMatch (Z.of_nat
                  (exec_index (mkExec 4 (lit "www.example.com/a.")
                                 [Some (lit "www"); Some (lit ".example.com");
                                  Some (lit "/a.")])))
               (lit "see www.example.com/a."))
    = findUrl latinWhitespace latinPunctuation
        (exec_whole (mkExec 4 (lit "www.example.com/a.")
                       [Some (lit "www"); Some (lit ".example.com");
                        Some (lit "/a.")]))
        protocol domain path
        (mkMatch (Z.of_nat
                    (exec_index (mkExec 4 (lit "www.example.com/a.")
                                   [Some (lit "www"); Some (lit ".example.com");
                                    Some (lit "/a.")])))
                 (lit "see www.example.com/a.")).
Proof.
  apply (url_match_groups latinWhitespace latinPunctuation
           (lit "see www.example.com/a.") 0).
  vm_compute. reflexivity.
Defined.

Lemma mention_match_groups_witness :
  exists name c label,
    exec_groups (mkExec 4 (lit "/u/bob@x.y.z")
                   [Some (lit "/u/bob"); Some (lit "x.y.z")])
    = [Some (lit "/u/" ++ name); Some (c :: label)] /\
    exec_whole (mkExec 4 (lit "/u/bob@x.y.z")
                  [Some (lit "/u/bob"); Some (lit "x.y.z")])
    = (lit "/u/" ++ name) ++ lit "@" ++ c :: label /\
    name <> [] /\ forallb (classHas atextClass) name = true /\
    classHas labelClass c = true /\ In c_dot label.
Proof.
  apply (mention_match_groups "/u/" (lit "see /u/bob@x.y.z") 0).
  vm_compute. reflexivity.
Defined.

